(** * Form builder (web/src/app/page.tsx): CSV export, bookmarklet, entry store

    A shallow embedding of the pure helpers of [page.tsx] ([toCSV],
    [parseBookmarkletPairs], the text of the autofill script emitted by
    [buildBookmarklet]) and of the state transitions of the [Home]
    component ([fields], [entry], [entries] and the handlers that update
    them), followed by the properties of the specification that concern
    them.

    Conventions of the model.
    - A JavaScript string is a [string]; one [ascii] stands for one UTF-16
      code unit below 256, which is the range in which the whitespace
      table below is complete.
    - A plain object used as a dictionary ([Entry], a CSV row) is described
      by its own enumerable properties.  Names that every plain object
      inherits from [Object.prototype] are kept apart in
      [Object_prototype_names], because the [in] operator and a property
      read both see them.
    - A thrown exception is [None]. *)

From Stdlib Require Import Ascii String List Bool Arith Lia.
From stdpp Require Import base option list strings gmap fin_maps.

Local Open Scope stdpp_scope.

(** ** JavaScript primitives used by the page *)

Module JS.

Definition dquote : ascii := "034"%char.
Definition comma : ascii := ","%char.
Definition LF : ascii := "010"%char.
Definition CR : ascii := "013"%char.

(** The string made of one code unit. *)
Definition str1 (c : ascii) : string := String c "".

(** [s.replaceAll(c, r)] for a one-character pattern [c]. *)
Fixpoint replaceAll (c : ascii) (r : string) (s : string) : string :=
  match s with
  | "" => ""
  | String a s' =>
      if Ascii.eqb a c then r +:+ replaceAll c r s'
      else String a (replaceAll c r s')
  end.

(** [/[...]/.test(s)] for a character class given as a predicate. *)
Fixpoint test_class (cls : ascii -> bool) (s : string) : bool :=
  match s with
  | "" => false
  | String a s' => cls a || test_class cls s'
  end.

(** [arr.join(sep)] on an array of strings. *)
Fixpoint join (sep : string) (arr : list string) : string :=
  match arr with
  | [] => ""
  | [x] => x
  | x :: rest => x +:+ sep +:+ join sep rest
  end.

(** [s.split(c)] for a one-character separator [c]. *)
Fixpoint split_char (c : ascii) (s : string) : list string :=
  match s with
  | "" => [""]
  | String a s' =>
      if Ascii.eqb a c then "" :: split_char c s'
      else match split_char c s' with
           | x :: xs => String a x :: xs
           | [] => [str1 a]
           end
  end.

(** Code units matched by [\s] and removed by [trim]. *)
Definition is_whitespace (a : ascii) : bool :=
  match a with
  | "009" | "010" | "011" | "012" | "013" | " " | "160" => true
  | _ => false
  end%char.

(** Property names that a plain object inherits from [Object.prototype]
    (the standard ones and those of Annex B, which browsers implement). *)
Definition Object_prototype_names : list string :=
  [ "constructor"; "hasOwnProperty"; "isPrototypeOf"; "propertyIsEnumerable";
    "toLocaleString"; "toString"; "valueOf"; "__proto__";
    "__defineGetter__"; "__defineSetter__";
    "__lookupGetter__"; "__lookupSetter__" ].

Definition inherited (k : string) : bool :=
  bool_decide (k ∈ Object_prototype_names).

(** What reading a property of a dictionary object can give: nothing, the
    string stored under an own key, or the member of [Object.prototype]
    of that name (a function, or the prototype itself for [__proto__]),
    which is neither a string nor nullish. *)
Inductive jsval :=
  | VUndefined
  | VString (s : string)
  | VInherited.

(** [v ?? d] *)
Definition nullish_or (v : jsval) (d : string) : jsval :=
  match v with
  | VUndefined => VString d
  | _ => v
  end.

(** [v || d]: the empty string is falsy as well. *)
Definition falsy_or (v : jsval) (d : string) : jsval :=
  match v with
  | VUndefined => VString d
  | VString "" => VString d
  | _ => v
  end.

(** *** Objects whose values need not be strings

    An object by its own enumerable string-keyed properties, in the order
    [Object.keys] lists them: keys that are array indices first, in
    ascending numeric order, then the other keys in the order they were
    created. *)
Definition object := list (string * jsval).

Definition digit (a : ascii) : option N :=
  let n := N_of_ascii a in
  if ((48 <=? n) && (n <=? 57))%N then Some (n - 48)%N else None.

Fixpoint digits (acc : N) (s : string) : option N :=
  match s with
  | "" => Some acc
  | String a s' =>
      match digit a with
      | Some d => digits (10 * acc + d)%N s'
      | None => None
      end
  end.

(** The array index a key denotes, if any: a decimal numeral without a
    leading zero (other than "0" itself) whose value is below 2^32 - 1. *)
Definition array_index (k : string) : option N :=
  match k with
  | "" => None
  | String a rest =>
      if Ascii.eqb a "0"%char then
        match rest with "" => Some 0%N | _ => None end
      else
        match digits 0 k with
        | Some n => if (n <? 4294967295)%N then Some n else None
        | None => None
        end
  end.

Fixpoint own_value (o : object) (k : string) : option jsval :=
  match o with
  | [] => None
  | (k', v) :: o' => if decide (k' = k) then Some v else own_value o' k
  end.

(** [o[k]] *)
Definition get_property (o : object) (k : string) : jsval :=
  match own_value o k with
  | Some v => v
  | None => if inherited k then VInherited else VUndefined
  end.

(** A new value for a key the object has: the key keeps its place. *)
Fixpoint replace_value (o : object) (k : string) (v : jsval) : object :=
  match o with
  | [] => []
  | (k', v') :: o' =>
      if decide (k' = k) then (k, v) :: o' else (k', v') :: replace_value o' k v
  end.

(** A new array-index key: after the smaller indices, before the rest. *)
Fixpoint insert_index (n : N) (k : string) (v : jsval) (o : object) : object :=
  match o with
  | [] => [(k, v)]
  | (k', v') :: o' =>
      match array_index k' with
      | Some m => if (m <? n)%N then (k', v') :: insert_index n k v o'
                  else (k, v) :: o
      | None => (k, v) :: o
      end
  end.

(** Defining the data property [k] with value [v]. *)
Definition define_property (o : object) (k : string) (v : jsval) : object :=
  match own_value o k with
  | Some _ => replace_value o k v
  | None =>
      match array_index k with
      | Some n => insert_index n k v o
      | None => o ++ [(k, v)]
      end
  end.

(** The order of [Object.keys]: first the keys that are array indices,
    none before a smaller one, then keys that are not. *)
Fixpoint index_sorted (o : object) : Prop :=
  match o with
  | [] => True
  | (k, _) :: o' =>
      match array_index k with
      | Some n =>
          Forall (fun kv => forall m, array_index kv.1 = Some m -> (n <= m)%N) o'
          /\ index_sorted o'
      | None => Forall (fun kv => array_index kv.1 = None) o'
      end
  end.

(** [Object.fromEntries(pairs)] *)
Definition object_fromEntries (pairs : list (string * jsval)) : object :=
  foldl (fun o kv => define_property o kv.1 kv.2) [] pairs.

End JS.

(** ** toCSV *)

Module Csv.
Import JS.

(** A row, [Record<string, string>]: its own enumerable properties in the
    order [Object.keys] lists them. *)
Definition record := list (string * string).

Definition Object_keys (r : record) : list string := r.*1.

Fixpoint own (r : record) (k : string) : option string :=
  match r with
  | [] => None
  | (k', v) :: r' => if decide (k' = k) then Some v else own r' k
  end.

(** [row[h]] *)
Definition get (r : record) (k : string) : jsval :=
  match own r k with
  | Some v => VString v
  | None => if inherited k then VInherited else VUndefined
  end.

Definition special (a : ascii) : bool :=
  Ascii.eqb a dquote || Ascii.eqb a comma || Ascii.eqb a LF.

(** The local function [escape] (lines 47-50).  On a value without a
    [replaceAll] method the call throws a TypeError. *)
Definition escape (v : jsval) : option string :=
  match v with
  | VUndefined => Some ""
  | VString t =>
      let s := replaceAll dquote (String dquote (str1 dquote)) t in
      Some (if test_class special s then str1 dquote +:+ s +:+ str1 dquote else s)
  | VInherited => None
  end.

(** [headers.map((h) => escape(row[h] ?? "")).join(",")] *)
Definition row_line (headers : list string) (row : record) : option string :=
  cells ← mapM (fun h => escape (nullish_or (get row h) "")) headers;
  Some (join (str1 comma) cells).

(** The [for (const row of rows) lines.push(...)] loop. *)
Fixpoint push_rows (headers : list string) (rows : list record)
    (lines : list string) : option (list string) :=
  match rows with
  | [] => Some lines
  | row :: rest =>
      l ← row_line headers row;
      push_rows headers rest (lines ++ [l])
  end.

Definition toCSV (rows : list record) : option string :=
  match rows with
  | [] => Some ""
  | first :: _ =>
      let headers := Object_keys first in
      lines ← push_rows headers rows [join (str1 comma) headers];
      Some (join (str1 LF) lines)
  end.

(** *** The contract in the words of the specification *)

Definition doubled (v : string) : string :=
  replaceAll dquote (String dquote (str1 dquote)) v.

Definition quoted (s : string) : string :=
  str1 dquote +:+ s +:+ str1 dquote.

(** "Internal double-quotes doubled, and the whole value quoted if it
    contains a comma, double-quote, or newline." *)
Definition encode_value (v : string) : string :=
  if test_class special v then quoted (doubled v) else doubled v.

(** "A value that is undefined/absent is treated as empty string before
    escaping." *)
Definition encode_row (headers : list string) (row : record) : string :=
  join (str1 comma) ((fun h => encode_value (default "" (own row h))) <$> headers).

(** "If rows is empty, result is the empty string.  Otherwise the header
    row is the key order of the first record ... Rows are newline-joined,
    no trailing newline appended, fields comma-joined." *)
Definition encode (rows : list record) : string :=
  match rows with
  | [] => ""
  | first :: _ =>
      let headers := Object_keys first in
      join (str1 LF) (join (str1 comma) headers :: (encode_row headers <$> rows))
  end.

(** Every cell read by [toCSV] is a string or undefined, as the type
    [Record<string, string>] of a row promises. *)
Definition string_valued (rows : list record) : Prop :=
  match rows with
  | [] => True
  | first :: _ =>
      Forall (fun row => Forall (fun h => get row h <> VInherited)
                                (Object_keys first)) rows
  end.

(** "Uniform records": every row has the key set of the first one. *)
Definition uniform (rows : list record) : Prop :=
  match rows with
  | [] => True
  | first :: _ =>
      Forall (fun row => forall k, k ∈ Object_keys row <-> k ∈ Object_keys first)
             rows
  end.

Definition has_newline (s : string) : bool :=
  test_class (fun a => Ascii.eqb a LF) s.

Definition has_comma (s : string) : bool :=
  test_class (fun a => Ascii.eqb a comma) s.

(** No key and no value of any row holds a newline. *)
Definition newline_free (rows : list record) : Prop :=
  Forall (Forall (fun kv : string * string =>
                    has_newline kv.1 = false /\ has_newline kv.2 = false)) rows.

(** *** toCSV on rows as the caller builds them

    [exportEntriesCSV] passes objects whose values come from property
    reads; the same code runs on them. *)
Definition row_line_any (headers : list string) (row : object) : option string :=
  cells ← mapM (fun h => escape (nullish_or (get_property row h) "")) headers;
  Some (join (str1 comma) cells).

Fixpoint push_rows_any (headers : list string) (rows : list object)
    (lines : list string) : option (list string) :=
  match rows with
  | [] => Some lines
  | row :: rest =>
      l ← row_line_any headers row;
      push_rows_any headers rest (lines ++ [l])
  end.

Definition toCSV_any (rows : list object) : option string :=
  match rows with
  | [] => Some ""
  | first :: _ =>
      let headers := first.*1 in
      lines ← push_rows_any headers rows [join (str1 comma) headers];
      Some (join (str1 LF) lines)
  end.

(** A row of strings as an object. *)
Definition of_record (r : record) : object :=
  (fun kv : string * string => (kv.1, VString kv.2)) <$> r.

(** [n] newlines. *)
Fixpoint newlines (n : nat) : string :=
  match n with
  | 0 => ""
  | S n' => String LF (newlines n')
  end.

End Csv.

(** ** parseBookmarkletPairs and the autofill script of buildBookmarklet *)

Module Bookmarklet.
Import JS.

(** [s.split(re)] for a pattern without capture groups that never matches
    the empty string.  [re s] is the length of the match of the pattern
    anchored at the start of [s], if there is one.  [skip] counts the code
    units of the current match still to be dropped and [cur] is the piece
    being read, last code unit first. *)
Fixpoint split_go (re : string -> option nat) (skip : nat) (cur : string)
    (s : string) : list string :=
  match s with
  | "" => [String.rev cur]
  | String a s' =>
      match skip with
      | S k => split_go re k cur s'
      | 0 =>
          match re s with
          | Some (S k) => String.rev cur :: split_go re k "" s'
          | _ => split_go re 0 (String a cur) s'
          end
      end
  end.

Definition split_regex (re : string -> option nat) (s : string) : list string :=
  split_go re 0 "" s.

(** [/\r?\n/] *)
Definition re_newline (s : string) : option nat :=
  match s with
  | String a s' =>
      if Ascii.eqb a LF then Some 1
      else if Ascii.eqb a CR then
        match s' with
        | String b _ => if Ascii.eqb b LF then Some 2 else None
        | "" => None
        end
      else None
  | "" => None
  end.

Definition is_separator (a : ascii) : bool :=
  Ascii.eqb a "="%char || Ascii.eqb a ":"%char.

Fixpoint count_whitespace (s : string) : nat :=
  match s with
  | String a s' => if is_whitespace a then S (count_whitespace s') else 0
  | "" => 0
  end.

(** [/\s*[=:]\s*/]: a run of whitespace, one separator, a run of
    whitespace; both runs are greedy and no separator is whitespace, so the
    match at a position is unique. *)
Fixpoint re_separator (s : string) : option nat :=
  match s with
  | String a s' =>
      if is_whitespace a then S <$> re_separator s'
      else if is_separator a then Some (S (count_whitespace s'))
      else None
  | "" => None
  end.

Fixpoint trimStart (s : string) : string :=
  match s with
  | String a s' => if is_whitespace a then trimStart s' else s
  | "" => ""
  end.

Definition trim (s : string) : string :=
  String.rev (trimStart (String.rev (trimStart s))).

(** A code unit that ends a line or starts a line break. *)
Definition line_break (a : ascii) : bool := Ascii.eqb a LF || Ascii.eqb a CR.

(** A code unit that [trim] keeps. *)
Definition not_whitespace (a : ascii) : bool := negb (is_whitespace a).

(** [Boolean(s)] on a string *)
Definition truthy (s : string) : bool :=
  match s with "" => false | _ => true end.

Record pair := { selector : string; value : string }.

(** [const [sel, ...rest] = line.split(...)] and the object built from
    them.  An array returned by [split] has at least one element; an empty
    one would leave [sel] undefined, and the last filter would drop the
    pair. *)
Definition line_pair (line : string) : option pair :=
  match split_regex re_separator line with
  | sel :: rest => Some {| selector := sel; value := join ": " rest |}
  | [] => None
  end.

Definition parseBookmarkletPairs (text : string) : list pair :=
  let lines := split_regex re_newline text in
  let lines := trim <$> lines in
  let lines := filter (fun l => truthy l = true) lines in
  let pairs := omap line_pair lines in
  filter (fun p => truthy (selector p) = true) pairs.

(** *** buildBookmarklet

    The script is a template literal (lines 71-98): its text is emitted
    as written, with the array literal of the pairs in the one hole. *)

(** Whether [needle] occurs in [hay]. *)
Fixpoint contains (needle hay : string) : bool :=
  String.prefix needle hay
  || match hay with
     | "" => false
     | String _ hay' => contains needle hay'
     end.

(** The text after the hole, line by line (lines 74-98). *)
Definition script_lines : list string :=
  [ ";";
    "    let filled = 0;";
    "    for (const { s, v } of pairs) {";
    "      try {";
    "        const el = document.querySelector(s);";
    "        if (!el) continue;";
    "        const tag = (el.tagName || " +:+ str1 dquote +:+ str1 dquote
      +:+ ").toLowerCase();";
    "        if (el instanceof HTMLInputElement || el instanceof HTMLTextAreaElement) {";
    "          const type = (el.getAttribute('type') || '').toLowerCase();";
    "          if (type === 'checkbox' || type === 'radio') {";
    "            (el as HTMLInputElement).checked = v === 'true' || v === '1' || v.toLowerCase() === 'yes';";
    "          } else {";
    "            el.value = v;";
    "          }";
    "          el.dispatchEvent(new Event('input', { bubbles: true }));";
    "          el.dispatchEvent(new Event('change', { bubbles: true }));";
    "        } else {";
    "          (el as HTMLElement).textContent = v;";
    "        }";
    "        filled++;";
    "      } catch {}";
    "    }";
    "    if (filled) console.log('Autofilled', filled, 'fields');";
    "    else alert('??? ?? ?????? ???? ???? (No fields matched).');";
    "  })();" ].

(** The two type assertions of TypeScript the text holds; JavaScript has
    no [as] operator. *)
Definition cast_checked : string := "(el as HTMLInputElement).checked = ".
Definition cast_textContent : string := "(el as HTMLElement).textContent = v".

Section Bookmarklet_code.
(** [JSON.stringify] on the array of [{ s, v }] objects, each given by its
    two strings. *)
Variable JSON_stringify : list (string * string) -> string.
Variable encodeURIComponent : string -> string.

(** The constant [code] of [buildBookmarklet]. *)
Definition bookmarklet_code (pairs : list pair) : string :=
  "(() => {" +:+ str1 LF +:+ "    const pairs = "
  +:+ JSON_stringify ((fun p => (selector p, value p)) <$> pairs)
  +:+ join (str1 LF) script_lines.

Definition buildBookmarklet (pairs : list pair) : string :=
  "javascript:" +:+ encodeURIComponent (bookmarklet_code pairs).

(** Opening the bookmark on a page.  The browser decodes the URI back to
    [code] and hands it to its engine: a text that is no JavaScript
    program is a SyntaxError and nothing of it runs; a program is
    evaluated on the page. *)
Variable Page : Type.
Variable parses : string -> bool.
Variable evaluate : string -> Page -> Page.

Definition open_bookmarklet (pairs : list pair) (page : Page) : Page :=
  let code := bookmarklet_code pairs in
  if parses code then evaluate code page else page.
End Bookmarklet_code.

(** Stand-ins for the examples: an engine that refuses a text with a type
    assertion on [el], and a page that counts the programs run on it. *)
Definition sample_stringify_pairs (pairs : list (string * string)) : string :=
  match pairs with [] => "[]" | _ => "[{}]" end.

Definition sample_parses (code : string) : bool := negb (contains "(el as " code).

Definition sample_evaluate (code : string) (page : nat) : nat := S page.

End Bookmarklet.

(** ** The Home component: fields, draft entry and saved entries *)

Module Home.
Import JS.

Inductive FieldType := text | email | tel | date | number | textarea.

Record Field := { id : string; label : string; type : FieldType }.

(** [Entry = Record<string, string>], by its own keys. *)
Abbreviation Entry := (gmap string string).

Definition DEFAULT_FIELDS : list Field :=
  [ {| id := "name"; label := "???"; type := text |};
    {| id := "email"; label := "????"; type := email |};
    {| id := "phone"; label := "????"; type := tel |};
    {| id := "address"; label := "???"; type := textarea |};
    {| id := "date"; label := "?????"; type := date |} ].

(** [Object.keys(o)]; the loops below do not depend on the order. *)
Definition Object_keys (o : Entry) : list string := (map_to_list o).*1.

(** [k in o]: an own key, or a name found on the prototype. *)
Definition js_in (k : string) (o : Entry) : bool :=
  bool_decide (is_Some (o !! k)) || inherited k.

(** [o[k]] *)
Definition get (o : Entry) (k : string) : jsval :=
  match o !! k with
  | Some v => VString v
  | None => if inherited k then VInherited else VUndefined
  end.

(** [Object.fromEntries(pairs)]: a later pair overwrites an earlier one. *)
Definition Object_fromEntries (pairs : list (string * string)) : Entry :=
  foldl (fun o kv => <[kv.1 := kv.2]> o) ∅ pairs.

(** [fields.map((f) => [f.id, ""])] turned into an object (lines 104-108, 167, 268). *)
Definition blank_entry (fields : list Field) : Entry :=
  Object_fromEntries ((fun f => (id f, "")) <$> fields).

(** The state of the component. *)
Record Store := {
  fields : list Field;
  entry : Entry;
  entries : list Entry
}.

Definition initial : Store :=
  {| fields := DEFAULT_FIELDS; entry := blank_entry DEFAULT_FIELDS; entries := [] |}.

(** The ids of a field list. *)
Definition ids (fs : list Field) : list string := id <$> fs.

(** "Entry ... covering exactly the current field set": the keys of the
    draft are the ids of the fields. *)
Definition keys_match (st : Store) : Prop :=
  dom (entry st) = list_to_set (ids (fields st)).

(** The cell of the saved-entries table, [en[f.id] || ""] (line 336). *)
Definition table_cell (en : Entry) (f : Field) : jsval :=
  falsy_or (get en (id f)) "".

(** The value exported for a column, [en[f.id] ?? ""] (line 174). *)
Definition export_cell (en : Entry) (f : Field) : jsval :=
  nullish_or (get en (id f)) "".

(** The updater of the effect "Ensure entry has keys for current fields"
    (lines 143-150). *)
Definition ensure_keys (fields : list Field) (prev : Entry) : Entry :=
  let next := prev in
  let next :=
    foldl (fun next f => if js_in (id f) next then next else <[id f := ""]> next)
          next fields in
  foldl (fun next k =>
           match List.find (fun f => bool_decide (id f = k)) fields with
           | Some _ => next
           | None => delete k next
           end)
        next (Object_keys next).

(** A state update that stores a new [fields] array, followed by the
    effect that depends on [fields]. *)
Definition setFields (newFields : list Field) (st : Store) : Store :=
  {| fields := newFields;
     entry := ensure_keys newFields (entry st);
     entries := entries st |}.

Definition updateValue (fieldId value : string) (st : Store) : Store :=
  {| fields := fields st;
     entry := <[fieldId := value]> (entry st);
     entries := entries st |}.

(** [s.slice(2, 10)] *)
Definition slice_2_10 (s : string) : string := String.substring 2 8 s.

(** [uid(prefix)]; [r36] is [Math.random().toString(36)]. *)
Definition uid (prefix r36 : string) : string :=
  prefix +:+ "_" +:+ slice_2_10 r36.

Definition addField (r36 : string) (st : Store) : Store :=
  let id := uid "field" r36 in
  setFields (fields st ++ [ {| id := id; label := "??? ??????"; type := text |} ]) st.

Definition removeField (i : string) (st : Store) : Store :=
  setFields (filter (fun f => id f ≠ i) (fields st)) st.

(** The label and type editors of a field row (lines 216-225). *)
Definition setLabel (i l : string) (st : Store) : Store :=
  setFields ((fun x => if decide (id x = i)
                       then {| id := id x; label := l; type := type x |} else x)
             <$> fields st) st.

Definition setType (i : string) (t : FieldType) (st : Store) : Store :=
  setFields ((fun x => if decide (id x = i)
                       then {| id := id x; label := label x; type := t |} else x)
             <$> fields st) st.

Definition saveEntry (st : Store) : Store :=
  {| fields := fields st;
     entry := blank_entry (fields st);
     entries := entry st :: entries st |}.

(** The button that clears the form (line 268). *)
Definition clearEntry (st : Store) : Store :=
  {| fields := fields st;
     entry := blank_entry (fields st);
     entries := entries st |}.

(** [list.filter((_, i) => i !== idx)] *)
Fixpoint filter_index {A} (keep : nat -> bool) (i : nat) (l : list A) : list A :=
  match l with
  | [] => []
  | x :: l' => if keep i then x :: filter_index keep (S i) l'
               else filter_index keep (S i) l'
  end.

Definition deleteSavedEntry (idx : nat) (st : Store) : Store :=
  {| fields := fields st;
     entry := entry st;
     entries := filter_index (fun i => negb (i =? idx)) 0 (entries st) |}.

(** *** importJSON

    A parsed JSON text.  Numbers are kept as their literal: the import
    never looks inside them.  [JObject] lists the own properties of the
    parsed object, each key once. *)
#[warnings="-register-all"]
Inductive json :=
  | JNull
  | JBool (b : bool)
  | JNumber (literal : string)
  | JString (s : string)
  | JArray (items : list json)
  | JObject (props : list (string * json)).

Fixpoint own_property (props : list (string * json)) (k : string) : option json :=
  match props with
  | [] => None
  | (k', v) :: rest => if decide (k' = k) then Some v else own_property rest k
  end.

(** The two properties [importJSON] reads. *)
Inductive import_prop := P_fields | P_entries.

Definition prop_name (p : import_prop) : string :=
  match p with P_fields => "fields" | P_entries => "entries" end.

Inductive readval :=
  | RUndefined
  | RValue (v : json)
  | RMethod.

(** [obj.fields] and [obj.entries] on a parsed value.  Reading a property
    of [null] throws.  Neither name is inherited by a plain object, a
    string, a number or a boolean; an array inherits the method
    [Array.prototype.entries]. *)
Definition read (obj : json) (p : import_prop) : option readval :=
  match obj with
  | JNull => None
  | JObject props =>
      Some (match own_property props (prop_name p) with
            | Some v => RValue v
            | None => RUndefined
            end)
  | JArray _ =>
      Some (match p with P_entries => RMethod | P_fields => RUndefined end)
  | JBool _ | JNumber _ | JString _ => Some RUndefined
  end.

(** [Array.isArray(x)], giving the elements. *)
Definition as_array (x : readval) : option (list json) :=
  match x with
  | RValue (JArray items) => Some items
  | _ => None
  end.

(** The two collections the import writes, as the runtime holds them:
    [setFields] and [setEntries] store the parsed arrays without looking
    at the shape of their elements. *)
Record Collections := {
  c_fields : list json;
  c_entries : list json
}.

Definition field_type_name (t : FieldType) : string :=
  match t with
  | text => "text" | email => "email" | tel => "tel"
  | date => "date" | number => "number" | textarea => "textarea"
  end.

Definition field_json (f : Field) : json :=
  JObject [("id", JString (id f)); ("label", JString (label f));
           ("type", JString (field_type_name (type f)))].

Definition entry_json (e : Entry) : json :=
  JObject (prod_map (fun k => k) JString <$> map_to_list e).

Definition collections (st : Store) : Collections :=
  {| c_fields := field_json <$> fields st;
     c_entries := entry_json <$> entries st |}.

(** The text of an export with no field and one saved entry. *)
Definition sample_export : string :=
  let q := str1 dquote in
  "{" +:+ q +:+ "fields" +:+ q +:+ ":[]," +:+ q +:+ "entries" +:+ q +:+ ":[{"
  +:+ q +:+ "name" +:+ q +:+ ":" +:+ q +:+ "A" +:+ q +:+ "}]}".

(** A stand-in for [JSON.parse] that knows four texts. *)
Definition sample_parse (text : string) : option json :=
  if decide (text = "{}") then Some (JObject [])
  else if decide (text = "[1]") then Some (JArray [JNumber "1"])
  else if decide (text = "null") then Some JNull
  else if decide (text = sample_export) then
    Some (JObject [("fields", JArray []);
                   ("entries", JArray [JObject [("name", JString "A")]])])
  else None.

Section ImportHandler.
(** [JSON.parse]: [None] when it throws a SyntaxError. *)
Variable JSON_parse : string -> option json.

(** The [reader.onload] handler of [importJSON] (lines 186-196);
    [result] is the text of the file. *)
Definition importJSON (result : string) (c : Collections) : Collections :=
  (* String(reader.result || "{}") *)
  let text := match result with "" => "{}" | _ => result end in
  match JSON_parse text with
  | None => c
  | Some obj =>
      let entries_only :=
        match obj with
        | JArray items => {| c_fields := c_fields c; c_entries := items |}
        | _ => c
        end in
      match read obj P_fields with
      | None => c
      | Some f =>
          match as_array f with
          | None => entries_only
          | Some fs =>
              match read obj P_entries with
              | None => c
              | Some e =>
                  match as_array e with
                  | None => entries_only
                  | Some es => {| c_fields := fs; c_entries := es |}
                  end
              end
          end
      end
  end.
End ImportHandler.

(** *** What a handler hands to the browser *)

Inductive effect :=
  | NoEffect
  | Throws
  | Download (filename content mime : string).

(** [exportEntriesCSV] (lines 170-178); [download] is the effect. *)
Definition exportEntriesCSV (st : Store) : effect :=
  match entries st with
  | [] => NoEffect
  | _ =>
      let mapRows :=
        (fun en => object_fromEntries
                     ((fun f => (label f, export_cell en f)) <$> fields st))
        <$> entries st in
      match Csv.toCSV_any mapRows with
      | Some csv => Download "data.csv" csv "text/csv;charset=utf-8"
      | None => Throws
      end
  end.

(** The object [{ fields, entries }] of [exportEntriesJSON]. *)
Definition export_object (c : Collections) : json :=
  JObject [("fields", JArray (c_fields c)); ("entries", JArray (c_entries c))].

Definition STORAGE_KEYS_fields : string := "form_fields_v1".
Definition STORAGE_KEYS_entries : string := "form_entries_v1".

(** [localStorage]: the stored items, each a text under its key. *)
Abbreviation Storage := (gmap string string).

Section Persistence.
(** [JSON.parse]: [None] when it throws. *)
Variable JSON_parse : string -> option json.
(** [JSON.stringify], with or without indentation. *)
Variable JSON_stringify : json -> string.

(** [exportEntriesJSON] (lines 180-182) *)
Definition exportEntriesJSON (c : Collections) : effect :=
  Download "data.json" (JSON_stringify (export_object c)) "application/json".

(** The two "Persist" effects (lines 131-140), with a storage that takes
    the writes. *)
Definition persist (c : Collections) (items : Storage) : Storage :=
  <[STORAGE_KEYS_entries := JSON_stringify (JArray (c_entries c))]>
    (<[STORAGE_KEYS_fields := JSON_stringify (JArray (c_fields c))]> items).

(** The "Load from localStorage" effect (lines 115-128).  [storage] is
    [None] when reading [localStorage] throws.  An exception leaves the
    [try] block at once; a state update made before it stays. *)
Definition load (storage : option Storage) (c : Collections) : Collections :=
  match storage with
  | None => c
  | Some items =>
      let f := items !! STORAGE_KEYS_fields in
      let e := items !! STORAGE_KEYS_entries in
      let after_fields : option Collections :=
        match f with
        | Some (String _ _ as text) =>
            match JSON_parse text with
            | None => None
            | Some (JArray (x :: rest)) =>
                Some {| c_fields := x :: rest; c_entries := c_entries c |}
            | Some _ => Some c
            end
        | _ => Some c
        end in
      match after_fields with
      | None => c
      | Some c1 =>
          match e with
          | Some (String _ _ as text) =>
              match JSON_parse text with
              | Some (JArray items') =>
                  {| c_fields := c_fields c1; c_entries := items' |}
              | _ => c1
              end
          | _ => c1
          end
      end
  end.
End Persistence.

(** A stand-in for [JSON.parse] on two stored arrays. *)
Definition sample_parse_arrays (text : string) : option json :=
  if decide (text = "[]") then Some (JArray [])
  else if decide (text = "[1]") then Some (JArray [JNumber "1"])
  else None.

(** A stand-in for [JSON.stringify] on the values of the examples. *)
Definition sample_stringify (v : json) : string :=
  match v with
  | JArray [] => "[]"
  | JArray _ => "[1]"
  | JObject _ => sample_export
  | _ => "null"
  end.

(** *** What the page lets the user do

    The handlers the rendered page wires to its controls: a value can be
    typed into a rendered field, a rendered field can be relabelled,
    retyped or removed, a rendered row can be deleted. *)
Inductive action :=
  | Type_value (fieldId value : string)
  | Set_label (i l : string)
  | Set_type (i : string) (t : FieldType)
  | Remove_field (i : string)
  | Add_field (r36 : string)
  | Save
  | Clear
  | Delete_row (idx : nat).

Definition offered (a : action) (st : Store) : Prop :=
  match a with
  | Type_value i _ | Set_label i _ | Set_type i _ | Remove_field i =>
      i ∈ ids (fields st)
  | Delete_row idx => idx < length (entries st)
  | Add_field _ | Save | Clear => True
  end.

Definition perform (a : action) (st : Store) : Store :=
  match a with
  | Type_value i v => updateValue i v st
  | Set_label i l => setLabel i l st
  | Set_type i t => setType i t st
  | Remove_field i => removeField i st
  | Add_field r36 => addField r36 st
  | Save => saveEntry st
  | Clear => clearEntry st
  | Delete_row idx => deleteSavedEntry idx st
  end.

(** The states the page reaches from its first render without an import
    and without stored data. *)
Inductive reachable : Store -> Prop :=
  | reachable_initial : reachable initial
  | reachable_step st a :
      reachable st -> offered a st -> reachable (perform a st).

End Home.


(** * Properties *)

(** ** Strings *)

Section Strings.
Import JS.
Implicit Types (s t : string) (cls : ascii -> bool).

Lemma app_String a s t : String a s +:+ t = String a (s +:+ t).
Proof. reflexivity. Qed.

Lemma app_empty_l t : "" +:+ t = t.
Proof. reflexivity. Qed.

Lemma test_class_app cls s t :
  test_class cls (s +:+ t) = test_class cls s || test_class cls t.
Proof.
  induction s as [|a s IH]; [done|].
  rewrite app_String. simpl. by rewrite IH, orb_assoc.
Qed.

Lemma test_class_join cls sep (arr : list string) :
  test_class cls sep = false ->
  Forall (fun x => test_class cls x = false) arr ->
  test_class cls (join sep arr) = false.
Proof.
  intros Hsep Harr. induction Harr as [|x arr Hx Harr IH]; [done|].
  destruct arr as [|y arr]; [done|].
  change (join sep (x :: y :: arr)) with (x +:+ sep +:+ join sep (y :: arr)).
  by rewrite !test_class_app, Hx, Hsep, IH.
Qed.

(** A piece without the separator, followed by the separator, is the
    first piece of the split. *)
Lemma split_char_app c s t :
  test_class (fun a => Ascii.eqb a c) s = false ->
  split_char c (s +:+ String c t) = s :: split_char c t.
Proof.
  induction s as [|a s IH]; intros Hs.
  - rewrite app_empty_l. simpl. by rewrite Ascii.eqb_refl.
  - rewrite app_String. simpl in *. apply orb_false_iff in Hs as [Ha Hs].
    by rewrite Ha, IH.
Qed.

Lemma split_char_whole c s :
  test_class (fun a => Ascii.eqb a c) s = false -> split_char c s = [s].
Proof.
  induction s as [|a s IH]; intros Hs; [done|].
  simpl in *. apply orb_false_iff in Hs as [Ha Hs]. by rewrite Ha, IH.
Qed.

(** Splitting undoes joining when no piece holds the separator. *)
Lemma split_char_join c (arr : list string) :
  arr <> [] ->
  Forall (fun x => test_class (fun a => Ascii.eqb a c) x = false) arr ->
  split_char c (join (str1 c) arr) = arr.
Proof.
  intros Hne Harr. induction Harr as [|x arr Hx Harr IH]; [done|].
  destruct arr as [|y arr]; [by apply split_char_whole|].
  change (join (str1 c) (x :: y :: arr))
    with (x +:+ String c (join (str1 c) (y :: arr))).
  rewrite split_char_app by done. f_equal. by apply IH.
Qed.
End Strings.

(** ** CSV *)

Section CsvClaims.
Import JS Csv.
Implicit Types (v s : string) (row : record) (rows : list record)
  (headers : list string).

Lemma special_doubled v : test_class special (doubled v) = test_class special v.
Proof.
  unfold doubled. induction v as [|a v IH]; [done|]. simpl.
  destruct (Ascii.eqb a dquote) eqn:Ha.
  - apply Ascii.eqb_eq in Ha as ->. by rewrite test_class_app.
  - simpl. by rewrite IH.
Qed.

Lemma has_newline_doubled v : has_newline (doubled v) = has_newline v.
Proof.
  unfold has_newline, doubled. induction v as [|a v IH]; [done|]. simpl.
  destruct (Ascii.eqb a dquote) eqn:Ha.
  - apply Ascii.eqb_eq in Ha as ->. rewrite test_class_app. simpl.
    by rewrite IH.
  - simpl. by rewrite IH.
Qed.

Lemma has_newline_encode_value v :
  has_newline v = false -> has_newline (encode_value v) = false.
Proof.
  intros Hv. unfold encode_value, quoted.
  destruct (test_class special v).
  - unfold has_newline. rewrite !test_class_app.
    fold (has_newline (doubled v)). by rewrite has_newline_doubled, Hv.
  - by rewrite has_newline_doubled.
Qed.

(** [escape] on a string is the value encoding of the specification: the
    test on the doubled text decides as the test on the value. *)
Lemma escape_string v : escape (VString v) = Some (encode_value v).
Proof.
  unfold escape, encode_value. fold (doubled v). by rewrite special_doubled.
Qed.

Lemma escape_cell row h :
  get row h <> VInherited ->
  escape (nullish_or (get row h) "") = Some (encode_value (default "" (own row h))).
Proof.
  unfold get. destruct (own row h) as [v|]; simpl.
  - intros _. apply escape_string.
  - destruct (inherited h); [congruence|]. intros _. apply escape_string.
Qed.

Lemma row_line_encode headers row :
  Forall (fun h => get row h <> VInherited) headers ->
  row_line headers row = Some (encode_row headers row).
Proof.
  intros Hrow. unfold row_line, encode_row.
  assert (mapM (fun h => escape (nullish_or (get row h) "")) headers
          = Some ((fun h => encode_value (default "" (own row h))) <$> headers))
    as ->; [|done].
  apply mapM_Some_2. induction Hrow as [|h hs Hh Hrow IH]; [constructor|].
  rewrite fmap_cons. constructor; [by apply escape_cell | done].
Qed.

Lemma push_rows_encode headers rows lines :
  Forall (fun row => Forall (fun h => get row h <> VInherited) headers) rows ->
  push_rows headers rows lines = Some (lines ++ (encode_row headers <$> rows)).
Proof.
  intros Hrows. revert lines.
  induction Hrows as [|row rows Hrow Hrows IH]; intros lines; simpl.
  - by rewrite app_nil_r.
  - rewrite row_line_encode by done. simpl. rewrite IH.
    by rewrite <- app_assoc.
Qed.

(** [toCSV] computes the encoding of the specification whenever no cell
    read is a member of the prototype. *)
Lemma toCSV_encode rows :
  string_valued rows -> toCSV rows = Some (encode rows).
Proof.
  destruct rows as [|first rest]; [done|].
  intros Hrows. unfold toCSV, encode.
  rewrite push_rows_encode by exact Hrows. done.
Qed.

Lemma doubled_plain v : test_class special v = false -> doubled v = v.
Proof.
  unfold doubled. induction v as [|a v IH]; [done|]. simpl.
  intros [Ha Hv]%orb_false_iff. unfold special in Ha.
  apply orb_false_iff in Ha as [[Hq _]%orb_false_iff _].
  rewrite Hq. f_equal. by apply IH.
Qed.

(** [toCSV] of no rows is the empty string.  On rows whose cells are
    strings or undefined it returns the keys of the first record joined by
    commas, then one line per row, the lines joined by a newline with none
    after the last.  In a line the value under each header is taken (the
    empty string where the row has none), and it is encoded: left as it is
    when it holds no comma, double quote or newline, and otherwise wrapped
    in double quotes with its own double quotes doubled. *)
Theorem toCSV_contract :
  toCSV [] = Some ""
  /\ (forall first rest,
        let rows := first :: rest in
        let headers := Object_keys first in
        string_valued rows ->
        toCSV rows
        = Some (join (str1 LF)
                  (join (str1 comma) headers
                   :: ((fun row =>
                          join (str1 comma)
                            ((fun h => encode_value (default "" (own row h)))
                             <$> headers))
                       <$> rows))))
  /\ (forall v, test_class special v = false -> encode_value v = v)
  /\ (forall v, test_class special v = true ->
        encode_value v = str1 dquote +:+ doubled v +:+ str1 dquote).
Proof.
  split; [reflexivity|]. split; [|split].
  - intros first rest rows headers Hrows. by apply toCSV_encode.
  - intros v Hv. unfold encode_value. rewrite Hv. by apply doubled_plain.
  - intros v Hv. unfold encode_value. by rewrite Hv.
Qed.

Lemma toCSV_contract_witness :
  let rows := [ [("name", "A, B"); ("note", "say " +:+ str1 dquote +:+ "hi" +:+ str1 dquote)];
                [("name", "C")] ] in
  toCSV rows
  = Some ("name,note" +:+ str1 LF
          +:+ quoted "A, B" +:+ ","
          +:+ quoted ("say " +:+ str1 dquote +:+ str1 dquote +:+ "hi"
                      +:+ str1 dquote +:+ str1 dquote)
          +:+ str1 LF +:+ "C,")
  /\ encode_value "C" = "C".
Proof.
  intros rows.
  destruct toCSV_contract as (_ & Hrows & Hplain & _). split.
  - unfold rows. etrans; [apply Hrows|].
    + repeat constructor; vm_compute; discriminate.
    + vm_compute. reflexivity.
  - apply Hplain. vm_compute. reflexivity.
Defined.


Lemma own_elem_of row k v : own row k = Some v -> (k, v) ∈ row.
Proof.
  induction row as [|[k' v'] row IH]; simpl; [discriminate|].
  case_decide as Hk.
  - intros [= ->]. subst. left.
  - intros Hown. right. by apply IH.
Qed.

Lemma own_is_Some row k : k ∈ Object_keys row -> is_Some (own row k).
Proof.
  unfold Object_keys.
  induction row as [|[k' v'] row IH]; simpl; [intros H; inversion H|].
  rewrite elem_of_cons. case_decide as Hk; [eauto|].
  intros [Heq|Hin]; [simpl in Heq; congruence | by apply IH].
Qed.

Lemma uniform_string_valued rows : uniform rows -> string_valued rows.
Proof.
  destruct rows as [|first rest]; [done|]. unfold uniform, string_valued.
  intros Hunif. eapply Forall_impl; [exact Hunif|]. simpl.
  intros row Hkeys. apply Forall_forall. intros h Hh.
  apply Hkeys, own_is_Some in Hh as [v Hv]. unfold get. by rewrite Hv.
Qed.

Lemma has_newline_encode_row headers row :
  Forall (fun kv : string * string =>
            has_newline kv.1 = false /\ has_newline kv.2 = false) row ->
  has_newline (encode_row headers row) = false.
Proof.
  intros Hrow. unfold encode_row, has_newline.
  apply test_class_join; [done|].
  apply Forall_fmap, Forall_forall. intros h _. simpl.
  apply has_newline_encode_value.
  destruct (own row h) as [v|] eqn:Hown; [|done]. simpl.
  apply own_elem_of in Hown. rewrite Forall_forall in Hrow.
  by destruct (Hrow _ Hown).
Qed.

Lemma has_newline_header row :
  Forall (fun kv : string * string =>
            has_newline kv.1 = false /\ has_newline kv.2 = false) row ->
  has_newline (join (str1 comma) (Object_keys row)) = false.
Proof.
  intros Hrow. apply test_class_join; [done|].
  unfold Object_keys. apply Forall_fmap. eapply Forall_impl; [exact Hrow|].
  by intros kv [Hk _].
Qed.

Lemma has_comma_special v : has_comma v = true -> test_class special v = true.
Proof.
  unfold has_comma. induction v as [|a v IH]; simpl; [done|].
  intros [Ha|Hv]%orb_true_iff.
  - unfold special. by rewrite Ha, orb_true_r.
  - by rewrite IH, orb_true_r.
Qed.

(** C5 fails as stated: a value that holds a newline is quoted and keeps
    the newline, so the text has more lines than rows plus one. *)
Lemma toCSV_value_with_newline :
  let rows := [ [("note", "a" +:+ str1 LF +:+ "b")] ] in
  uniform rows
  /\ exists out, toCSV rows = Some out
       /\ length (split_char LF out) = 3
       /\ length (split_char LF out) <> length rows + 1.
Proof.
  split.
  - constructor; [done | constructor].
  - eexists. split; [vm_compute; reflexivity|]. split; [reflexivity|].
    simpl. lia.
Qed.

(** C5, amended.  For a first row and the rows after it, all with the
    keys of the first and with no newline in a key or a value, the text
    [toCSV] returns splits at newlines into one line more than there are
    rows.  The first line is the keys of the first row joined by commas.
    Line [i + 1] is the cells of row [i] joined by commas, one cell per
    header, and the cell of a value that holds a comma is that value with
    its double quotes doubled, between double quotes. *)
Theorem toCSV_lines first rest :
  let rows := first :: rest in
  let headers := Object_keys first in
  uniform rows -> newline_free rows ->
  exists out,
    toCSV rows = Some out
    /\ length (split_char LF out) = length rows + 1
    /\ split_char LF out !! 0 = Some (join (str1 comma) headers)
    /\ forall i row, rows !! i = Some row ->
         exists cells,
           split_char LF out !! S i = Some (join (str1 comma) cells)
           /\ length cells = length headers
           /\ forall j h v,
                headers !! j = Some h -> own row h = Some v ->
                has_comma v = true ->
                cells !! j = Some (quoted (doubled v)).
Proof.
  intros rows headers Hunif Hfree.
  exists (encode rows). split.
  { apply toCSV_encode. by apply uniform_string_valued. }
  assert (Hsplit : split_char LF (encode rows)
                   = join (str1 comma) headers :: (encode_row headers <$> rows)).
  { apply split_char_join; [done|]. constructor.
    - apply has_newline_header. by inversion Hfree.
    - apply Forall_fmap. eapply Forall_impl; [exact Hfree|].
      intros row Hrow. by apply has_newline_encode_row. }
  rewrite Hsplit. split; [|split; [done|]].
  { simpl. rewrite length_fmap. lia. }
  intros i row Hi.
  exists ((fun h => encode_value (default "" (own row h))) <$> headers).
  split; [|split].
  - change ((encode_row headers <$> rows) !! i = Some (encode_row headers row)).
    by rewrite list_lookup_fmap, Hi.
  - by rewrite length_fmap.
  - intros j h v Hj Hown Hcomma.
    rewrite list_lookup_fmap, Hj. simpl. rewrite Hown. simpl.
    unfold encode_value. by rewrite has_comma_special.
Qed.

Lemma toCSV_lines_witness :
  let first := [("name", "Rao, A."); ("email", "a@example.com")] in
  let second := [("email", "b@example.com"); ("name", "B")] in
  exists out,
    toCSV [first; second] = Some out
    /\ split_char LF out
       = ["name,email"; quoted "Rao, A." +:+ ",a@example.com"; "B,b@example.com"].
Proof.
  intros first second.
  destruct (toCSV_lines first [second]) as (out & Hout & _).
  - constructor; [done|]. constructor; [|constructor].
    intros k. unfold Object_keys. simpl. rewrite !elem_of_cons. tauto.
  - repeat constructor.
  - exists out. split; [exact Hout|].
    vm_compute in Hout. injection Hout as <-. vm_compute. reflexivity.
Defined.
End CsvClaims.

(** ** Bookmarklet *)

Section BookmarkletClaims.
Import JS Bookmarklet.

(** No pair of the result has an empty selector. *)
Lemma parseBookmarkletPairs_selector text p :
  p ∈ parseBookmarkletPairs text -> selector p <> "".
Proof.
  unfold parseBookmarkletPairs. intros Hp.
  apply list_elem_of_filter in Hp as [Hsel _]. by destruct (selector p).
Qed.

(** A blank line and a line that starts with the separator give no pair;
    a line is cut at every separator and the pieces after the first are
    joined again with a colon and a space. *)
Example parseBookmarkletPairs_lines :
  parseBookmarkletPairs ("#a : b" +:+ str1 CR +:+ str1 LF +:+ "   " +:+ str1 LF
                         +:+ "= value" +:+ str1 LF +:+ "x=y=z")
  = [ {| selector := "#a"; value := "b" |};
      {| selector := "x"; value := "y: z" |} ].
Proof. vm_compute. reflexivity. Qed.

(** C4.  The specification gives the example line
    "input[name=email] = user@example.com", the one the page itself shows
    as the format to type, and expects the selector "input[name=email]"
    with the value "user@example.com".  The line is split at every [=]
    and [:], so the [=] inside the brackets ends the selector. *)
Theorem parseBookmarkletPairs_documented_example :
  parseBookmarkletPairs "input[name=email] = user@example.com"
  = [ {| selector := "input[name"; value := "email]: user@example.com" |} ]
  /\ parseBookmarkletPairs "input[name=email] = user@example.com"
     <> [ {| selector := "input[name=email]"; value := "user@example.com" |} ].
Proof.
  assert (H : parseBookmarkletPairs "input[name=email] = user@example.com"
    = [ {| selector := "input[name"; value := "email]: user@example.com" |} ])
    by (vm_compute; reflexivity).
  split; [exact H|]. rewrite H. intros [= Hsel _].
Qed.

Lemma contains_app_r needle s t :
  contains needle t = true -> contains needle (s +:+ t) = true.
Proof.
  intros Ht. induction s as [|a s IH]; [done|].
  rewrite app_String. cbn [contains]. by rewrite IH, orb_true_r.
Qed.

(** Whatever the pairs, the emitted text holds the two type assertions. *)
Lemma bookmarklet_code_casts (JSON_stringify : list (string * string) -> string)
    pairs :
  contains cast_checked (bookmarklet_code JSON_stringify pairs) = true
  /\ contains cast_textContent (bookmarklet_code JSON_stringify pairs) = true.
Proof.
  unfold bookmarklet_code.
  split; do 4 apply contains_app_r; vm_compute; reflexivity.
Qed.

(** C6.  The specification has the compiled script set the checked state
    of a checkbox or radio and assign the value of any other control.
    The script is emitted as the text of a template literal, and that
    text still holds the TypeScript type assertions [(el as
    HTMLInputElement)] and [(el as HTMLElement)] (lines 84 and 91), for
    every list of pairs.  An engine takes such a text for no program:
    opening the bookmark then leaves the page as it was, checkbox
    included. *)
Theorem bookmarklet_keeps_type_assertions
    (JSON_stringify : list (string * string) -> string) pairs :
  contains cast_checked (bookmarklet_code JSON_stringify pairs) = true
  /\ contains cast_textContent (bookmarklet_code JSON_stringify pairs) = true
  /\ forall (Page : Type) (parses : string -> bool)
       (evaluate : string -> Page -> Page) (page : Page),
       parses (bookmarklet_code JSON_stringify pairs) = false ->
       open_bookmarklet JSON_stringify Page parses evaluate pairs page = page.
Proof.
  destruct (bookmarklet_code_casts JSON_stringify pairs) as [Hc Ht].
  split; [exact Hc|]. split; [exact Ht|].
  intros Page parses evaluate page Hsyntax.
  unfold open_bookmarklet. by rewrite Hsyntax.
Qed.

Lemma bookmarklet_keeps_type_assertions_witness :
  let pairs := [ {| selector := "#agree"; value := "true" |} ] in
  open_bookmarklet sample_stringify_pairs nat sample_parses sample_evaluate pairs 0 = 0.
Proof.
  intros pairs.
  apply (bookmarklet_keeps_type_assertions sample_stringify_pairs pairs).
  vm_compute. reflexivity.
Defined.

End BookmarkletClaims.

(** ** The draft entry and the field list *)

Section Reconciliation.
Import JS Home.
Implicit Types (fs : list Field) (o : Entry) (k : string) (st : Store).

Lemma ids_cons f fs : ids (f :: fs) = id f :: ids fs.
Proof. reflexivity. Qed.

Lemma bool_decide_elem_of_cons_ne k k' (ks : list string) :
  k ≠ k' -> bool_decide (k ∈ k' :: ks) = bool_decide (k ∈ ks).
Proof.
  intros Hne. apply bool_decide_ext. rewrite elem_of_cons.
  split; [intros [?|?]; [congruence | done] | by right].
Qed.

Lemma find_id_Some fs k :
  is_Some (List.find (fun f => bool_decide (id f = k)) fs) <-> k ∈ ids fs.
Proof.
  induction fs as [|f fs IH]; [|rewrite ids_cons]; simpl.
  - split; [intros [? ?]; discriminate | intros H; inversion H].
  - case_bool_decide as Hk.
    + split; [intros _; subst; left | intros _; eauto].
    + rewrite IH. split; [intros H; by right|].
      intros H. apply elem_of_cons in H as [H|H]; [congruence|done].
Qed.

(** First loop of the effect: a key is written for every field id the
    [in] operator does not already find. *)
Lemma add_missing_lookup fs o k :
  foldl (fun next f => if js_in (id f) next then next else <[id f := ""]> next)
        o fs !! k
  = match o !! k with
    | Some v => Some v
    | None => if bool_decide (k ∈ ids fs) && negb (inherited k)
              then Some "" else None
    end.
Proof.
  revert o. induction fs as [|f fs IH]; intros o.
  - simpl. by destruct (o !! k).
  - rewrite ids_cons. cbn [foldl]. rewrite IH. unfold js_in.
    destruct (decide (k = id f)) as [->|Hne].
    + rewrite (bool_decide_eq_true_2 (id f ∈ id f :: ids fs)) by (left).
      destruct (o !! id f) as [v|] eqn:Ho; simpl.
      * by rewrite Ho.
      * destruct (inherited (id f)); simpl.
        -- by rewrite Ho, andb_false_r.
        -- by rewrite lookup_insert_eq.
    + assert (bool_decide (k ∈ id f :: ids fs)
              = bool_decide (k ∈ ids fs)) as ->.
      { by apply bool_decide_elem_of_cons_ne. }
      destruct (bool_decide (is_Some (o !! id f)) || inherited (id f));
        [done|]. by rewrite lookup_insert_ne.
Qed.

(** Second loop: every listed key without a field is deleted. *)
Lemma drop_stale_lookup fs (ks : list string) o k :
  foldl (fun next k' =>
           match List.find (fun f => bool_decide (id f = k')) fs with
           | Some _ => next
           | None => delete k' next
           end) o ks !! k
  = if bool_decide (k ∈ ks) && negb (bool_decide (k ∈ ids fs))
    then None else o !! k.
Proof.
  revert o. induction ks as [|k' ks IH]; intros o; simpl; [done|].
  rewrite IH.
  destruct (List.find _ fs) as [f|] eqn:Hfind.
  - assert (k' ∈ ids fs) as Hin by (apply find_id_Some; rewrite Hfind; eauto).
    destruct (decide (k = k')) as [->|Hne].
    + rewrite (bool_decide_eq_true_2 (k' ∈ ids fs)) by done.
      simpl. by rewrite !andb_false_r.
    + by rewrite bool_decide_elem_of_cons_ne.
  - assert (k' ∉ ids fs) as Hnin.
    { intros Hin. apply find_id_Some in Hin. rewrite Hfind in Hin.
      by destruct Hin. }
    destruct (decide (k = k')) as [->|Hne].
    + rewrite (bool_decide_eq_true_2 (k' ∈ k' :: ks)) by left.
      rewrite (bool_decide_eq_false_2 (k' ∈ ids fs)) by done.
      simpl. rewrite lookup_delete_eq. by destruct (bool_decide (k' ∈ ks)).
    + rewrite lookup_delete_ne by done.
      by rewrite bool_decide_elem_of_cons_ne.
Qed.

Lemma elem_of_Object_keys o k : k ∈ Home.Object_keys o <-> is_Some (o !! k).
Proof.
  unfold Home.Object_keys. rewrite list_elem_of_fmap. split.
  - intros [[k' v] [-> Hin]]. apply elem_of_map_to_list in Hin. eauto.
  - intros [v Hv]. exists (k, v). split; [done|].
    by apply elem_of_map_to_list.
Qed.

(** What the effect leaves under each key. *)
Lemma ensure_keys_lookup fs o k :
  ensure_keys fs o !! k
  = if bool_decide (k ∈ ids fs) then
      match o !! k with
      | Some v => Some v
      | None => if inherited k then None else Some ""
      end
    else None.
Proof.
  unfold ensure_keys. rewrite drop_stale_lookup.
  set (next := foldl _ o fs).
  assert (Hnext : next !! k
    = match o !! k with
      | Some v => Some v
      | None => if bool_decide (k ∈ ids fs) && negb (inherited k)
                then Some "" else None
      end) by apply add_missing_lookup.
  case_bool_decide as Hin; simpl.
  - rewrite andb_false_r, Hnext. simpl.
    destruct (o !! k); [done|]. by destruct (inherited k).
  - destruct (bool_decide (k ∈ Home.Object_keys next)) eqn:Hk; simpl; [done|].
    apply bool_decide_eq_false in Hk. rewrite elem_of_Object_keys in Hk.
    destruct (next !! k) eqn:E; [exfalso; eauto | done].
Qed.

(** Reconciliation as the specification describes it, for field lists
    none of whose ids is a name inherited from [Object.prototype]. *)
Lemma setFields_reconciles newFields st :
  Forall (fun f => inherited (id f) = false) newFields ->
  dom (entry (setFields newFields st)) = list_to_set (ids newFields)
  /\ (forall k, k ∈ ids newFields -> entry st !! k = None ->
        entry (setFields newFields st) !! k = Some "")
  /\ (forall k, k ∈ ids newFields -> is_Some (entry st !! k) ->
        entry (setFields newFields st) !! k = entry st !! k).
Proof.
  intros Hplain. simpl.
  assert (Hinh : forall k, k ∈ ids newFields -> inherited k = false).
  { intros k Hk. unfold ids in Hk. apply list_elem_of_fmap in Hk as [f [-> Hf]].
    rewrite Forall_forall in Hplain. by apply Hplain. }
  split; [|split].
  - apply set_eq. intros k. rewrite elem_of_dom, elem_of_list_to_set.
    rewrite ensure_keys_lookup. case_bool_decide as Hin.
    + split; [done|]. intros _. destruct (entry st !! k); [eauto|].
      rewrite Hinh by done. eauto.
    + split; [intros [? ?]; discriminate | done].
  - intros k Hin Hnone. rewrite ensure_keys_lookup.
    rewrite bool_decide_eq_true_2 by done. by rewrite Hnone, Hinh.
  - intros k Hin [v Hv]. rewrite ensure_keys_lookup.
    rewrite bool_decide_eq_true_2 by done. by rewrite Hv.
Qed.

Lemma Object_fromEntries_lookup (pairs : list (string * string)) o k :
  (forall kv, kv ∈ pairs -> kv.2 = "") ->
  foldl (fun o kv => <[kv.1 := kv.2]> o) o pairs !! k
  = if bool_decide (k ∈ pairs.*1) then Some "" else o !! k.
Proof.
  revert o. induction pairs as [|[k' v] pairs IH]; intros o Hblank; [done|].
  cbn [foldl]. rewrite IH by (intros kv Hkv; apply Hblank; by right).
  rewrite fmap_cons. simpl.
  destruct (decide (k = k')) as [->|Hne].
  - rewrite (bool_decide_eq_true_2 (k' ∈ k' :: pairs.*1)) by left.
    rewrite lookup_insert_eq.
    assert (v = "") as -> by (apply (Hblank (k', v)); left).
    by destruct (bool_decide _).
  - rewrite bool_decide_elem_of_cons_ne by done.
    by rewrite lookup_insert_ne.
Qed.

(** The reset draft has exactly the field ids as keys, each empty. *)
Lemma blank_entry_lookup fs k :
  blank_entry fs !! k = if bool_decide (k ∈ ids fs) then Some "" else None.
Proof.
  unfold blank_entry, Object_fromEntries.
  rewrite Object_fromEntries_lookup.
  - unfold ids. rewrite <- list_fmap_compose. simpl. by rewrite lookup_empty.
  - intros kv Hkv. apply list_elem_of_fmap in Hkv as [f [-> _]]. done.
Qed.

Lemma blank_entry_dom fs : dom (blank_entry fs) = list_to_set (ids fs).
Proof.
  apply set_eq. intros k.
  rewrite elem_of_dom, elem_of_list_to_set, blank_entry_lookup.
  case_bool_decide as Hin.
  - split; [done | eauto].
  - split; [intros [? ?]; discriminate | done].
Qed.

Lemma filter_index_all {A} (keep : nat -> bool) i (l : list A) :
  (forall j, i <= j -> keep j = true) -> filter_index keep i l = l.
Proof.
  revert i. induction l as [|x l IH]; intros i Hkeep; simpl; [done|].
  rewrite Hkeep by lia. f_equal. apply IH. intros j Hj. apply Hkeep. lia.
Qed.

(** Deleting by position, as a list operation. *)
Lemma filter_index_delete {A} idx i (l : list A) :
  filter_index (fun j => negb (j =? i + idx)) i l = delete idx l.
Proof.
  revert idx i. induction l as [|x l IH]; intros idx i; simpl.
  - by destruct idx.
  - destruct idx as [|idx].
    + rewrite Nat.add_0_r, Nat.eqb_refl. simpl.
      apply filter_index_all. intros j Hj.
      apply negb_true_iff, Nat.eqb_neq. lia.
    + destruct (i =? i + S idx) eqn:E; [apply Nat.eqb_eq in E; lia|].
      simpl. f_equal. replace (i + S idx) with (S i + idx) by lia. apply IH.
Qed.
End Reconciliation.

Section StoreClaims.
Import JS Home.
Implicit Types (st : Store) (k : string).

(** C1. The specification says that after [setFields] the keys of the
    draft entry are exactly the ids of the new field list, new ids holding
    the empty string.  The effect tests [f.id in next], which also finds
    names inherited from [Object.prototype]: a field whose id is such a
    name never receives a key.  Here the imported field list has the ids
    "name" and "toString"; the draft ends with the single key "name". *)
Theorem setFields_skips_inherited_id :
  let imported := [ {| id := "name"; label := "Name"; type := text |};
                    {| id := "toString"; label := "T"; type := text |} ] in
  let st := setFields imported initial in
  keys_match initial
  /\ entry st = {[ "name" := "" ]}
  /\ entry st !! "toString" = None
  /\ ~ keys_match st.
Proof.
  intros imported st.
  assert (Hentry : entry st = {[ "name" := "" ]}) by (vm_compute; reflexivity).
  split; [apply blank_entry_dom|].
  split; [exact Hentry|].
  split; [by rewrite Hentry|].
  unfold keys_match. rewrite Hentry. intros Heq.
  assert (Hin : "toString" ∈ (list_to_set (ids (fields st)) : gset string)).
  { apply elem_of_list_to_set. right. left. }
  rewrite <- Heq in Hin. apply elem_of_dom in Hin as [v Hv].
  vm_compute in Hv. discriminate.
Qed.

(** C7. [saveEntry] followed by [deleteSavedEntry(0)] leaves the saved
    entries as they were; the field list is untouched and the draft is
    reset: every field id holds the empty string and there is no other
    key. *)
Theorem saveEntry_then_delete_first st :
  let st' := deleteSavedEntry 0 (saveEntry st) in
  entries st' = entries st
  /\ fields st' = fields st
  /\ forall k, entry st' !! k
               = if bool_decide (k ∈ ids (fields st)) then Some "" else None.
Proof.
  simpl. split; [|split; [done|]].
  - apply filter_index_all. intros j Hj.
    apply negb_true_iff, Nat.eqb_neq. lia.
  - intros k. apply blank_entry_lookup.
Qed.

(** Replacing the field list, adding a field and removing a field, each
    with the reconciliation of the draft that follows, leave the list of
    saved entries as it was; so do the label and type editors.  A saved
    entry that has no value under a field id (and finds none on its
    prototype) shows the empty string in the table and in the export. *)
Theorem field_changes_keep_entries st :
  (forall newFields, entries (setFields newFields st) = entries st)
  /\ (forall r36, entries (addField r36 st) = entries st)
  /\ (forall i, entries (removeField i st) = entries st)
  /\ (forall i l, entries (setLabel i l st) = entries st)
  /\ (forall i t, entries (setType i t st) = entries st)
  /\ (forall (en : Entry) f,
        en !! id f = None -> inherited (id f) = false ->
        table_cell en f = VString "" /\ export_cell en f = VString "").
Proof.
  do 5 (split; [reflexivity|]). intros en f Hmissing Hplain.
  unfold table_cell, export_cell, get. by rewrite Hmissing, Hplain.
Qed.

(** A saved entry keeps the key of a removed field and lacks the key of
    an added one; the missing key shows as the empty string. *)
Lemma field_changes_keep_entries_witness :
  let saved : Entry := {[ "name" := "A"; "email" := "b@c.com" ]} in
  let st := {| fields := DEFAULT_FIELDS; entry := blank_entry DEFAULT_FIELDS;
               entries := [saved] |} in
  entries (removeField "email" st) = [saved]
  /\ entries (addField "0.4fzyo82mvyr" st) = [saved]
  /\ table_cell saved {| id := "zip"; label := "Zip"; type := text |} = VString "".
Proof.
  intros saved st.
  destruct (field_changes_keep_entries st) as (_ & Hadd & Hremove & _ & _ & Hcell).
  split; [apply Hremove|]. split; [apply Hadd|].
  apply Hcell; vm_compute; reflexivity.
Defined.


(** C9 fails as stated: the id is drawn at random and not compared with
    the ids in use.  Two draws that agree on the eight characters [uid]
    keeps give two fields with one id. *)
Lemma addField_id_collision :
  let st := addField "0.4fzyo82mvyr" initial in
  let st' := addField "0.4fzyo82mzzz" st in
  NoDup (ids (fields st)) /\ ~ NoDup (ids (fields st')).
Proof.
  split.
  - apply (bool_decide_unpack _). vm_compute. exact I.
  - intros Hnd. apply (bool_decide_pack _) in Hnd. vm_compute in Hnd. done.
Qed.

(** C9, amended.  [addField] appends one field at the end of the list and
    leaves the fields before it as they were; the new field has the
    placeholder label, the type text and the id "field_" followed by at
    most eight characters of the random draw.  That id differs from every
    id in use that does not start with "field_". *)
Theorem addField_appends r36 st :
  let new := {| id := "field_" +:+ slice_2_10 r36;
                label := "??? ??????"; type := text |} in
  fields (addField r36 st) = fields st ++ [new]
  /\ String.length (slice_2_10 r36) <= 8
  /\ (forall f, f ∈ fields st ->
        String.prefix "field_" (id f) = false -> id f <> id new).
Proof.
  intros new. split; [reflexivity|]. split.
  - unfold slice_2_10.
    assert (Hlen : forall n m s, String.length (String.substring n m s) <= m).
    { induction n as [|n IHn]; intros m s.
      - revert s. induction m as [|m IHm]; intros [|a s]; simpl; try lia.
        specialize (IHm s). lia.
      - destruct s as [|a s]; simpl; [destruct m; simpl; lia | apply IHn]. }
    apply Hlen.
  - intros f _ Hpre Heq. rewrite Heq in Hpre. simpl in Hpre.
    change ("" +:+ slice_2_10 r36) with (slice_2_10 r36) in Hpre.
    destruct (slice_2_10 r36); discriminate.
Qed.

Lemma addField_appends_witness :
  ids (fields (addField "0.4fzyo82mvyr" initial))
  = ["name"; "email"; "phone"; "address"; "date"; "field_4fzyo82m"]
  /\ "field_4fzyo82m" ∉ ids (fields initial).
Proof.
  destruct (addField_appends "0.4fzyo82mvyr" initial) as (Hfields & _ & Hfresh).
  split; [by rewrite Hfields|].
  intros [f [Hid Hf]]%list_elem_of_fmap.
  apply (Hfresh f Hf); [|by rewrite <- Hid].
  apply (bool_decide_unpack _).
  revert Hf. generalize f. apply Forall_forall.
  repeat constructor.
Defined.

(** C10 fails as stated in its last part: the draft is also rebuilt by
    [saveEntry], with no change to the field list. *)
Lemma saveEntry_restores_keys :
  let st := updateValue "zip" "1" initial in
  ~ keys_match st
  /\ fields (saveEntry st) = fields st
  /\ keys_match (saveEntry st).
Proof.
  intros st. split; [|split; [reflexivity | apply blank_entry_dom]].
  unfold keys_match. intros Heq.
  assert (Hin : "zip" ∈ dom (entry st)).
  { apply elem_of_dom. exists "1". apply lookup_insert_eq. }
  rewrite Heq in Hin. apply elem_of_list_to_set in Hin.
  apply (bool_decide_pack _) in Hin. vm_compute in Hin. done.
Qed.

(** C10, amended.  [updateValue] writes the key whatever it is, and
    touches nothing else.  When the key is not the id of a field, the
    keys of the draft no longer match the field list.  The stray key goes
    when the draft is rebuilt: the reconciliation after the next change of
    the field list drops it, and [saveEntry] and the clear button reset
    the draft to the field ids. *)
Theorem updateValue_sets_key st fieldId value :
  let st' := updateValue fieldId value st in
  entry st' !! fieldId = Some value
  /\ (forall k, k <> fieldId -> entry st' !! k = entry st !! k)
  /\ fields st' = fields st
  /\ entries st' = entries st
  /\ (fieldId ∉ ids (fields st) -> ~ keys_match st')
  /\ (forall newFields, fieldId ∉ ids newFields ->
        entry (setFields newFields st') !! fieldId = None)
  /\ keys_match (saveEntry st')
  /\ keys_match (clearEntry st').
Proof.
  simpl. split; [apply lookup_insert_eq|].
  split; [intros k Hk; by apply lookup_insert_ne|].
  do 2 (split; [reflexivity|]).
  split; [|split; [|split]].
  - intros Hnot Heq. unfold keys_match in Heq. simpl in Heq.
    apply Hnot, (elem_of_list_to_set (C := gset string)).
    rewrite <- Heq. apply elem_of_dom. exists value. apply lookup_insert_eq.
  - intros newFields Hnot. rewrite ensure_keys_lookup.
    by rewrite bool_decide_eq_false_2.
  - apply blank_entry_dom.
  - apply blank_entry_dom.
Qed.

Lemma updateValue_sets_key_witness :
  let st' := updateValue "zip" "560001" initial in
  entry st' !! "zip" = Some "560001"
  /\ ~ keys_match st'
  /\ entry (removeField "phone" st') !! "zip" = None.
Proof.
  intros st'.
  destruct (updateValue_sets_key initial "zip" "560001")
    as (Hset & _ & _ & _ & Hbreak & Hdrop & _ & _).
  split; [exact Hset|]. split.
  - apply Hbreak. apply (bool_decide_unpack _). vm_compute. done.
  - apply Hdrop. apply (bool_decide_unpack _). vm_compute. done.
Defined.
End StoreClaims.

(** ** Import *)

Section ImportClaims.
Import JS Home.
Variable JSON_parse : string -> option json.
(** Two facts about [JSON.parse]: the empty text is not JSON, and "{}" is
    the object without properties. *)
Hypothesis parse_empty_text : JSON_parse "" = None.
Hypothesis parse_empty_object : JSON_parse "{}" = Some (JObject []).

(** C2. What [importJSON] does with the text of a file: an object whose
    [fields] and [entries] are arrays replaces both collections; any
    other object changes nothing; an array replaces the entries and
    leaves the fields; every other value, and a text that does not parse,
    changes nothing. *)
Theorem importJSON_contract contents c :
  importJSON JSON_parse contents c =
  match JSON_parse contents with
  | Some (JObject props) =>
      match own_property props "fields", own_property props "entries" with
      | Some (JArray fs), Some (JArray es) => {| c_fields := fs; c_entries := es |}
      | _, _ => c
      end
  | Some (JArray items) => {| c_fields := c_fields c; c_entries := items |}
  | Some _ => c
  | None => c
  end.
Proof.
  unfold importJSON. destruct contents as [|a rest].
  - by rewrite parse_empty_text, parse_empty_object.
  - destruct (JSON_parse (String a rest)) as [obj|]; [|reflexivity].
    destruct obj as [| | | |items|props]; try reflexivity. simpl.
    destruct (own_property props "fields") as [[| | | |fs|]|]; try reflexivity.
    simpl.
    destruct (own_property props "entries") as [[| | | |es|]|]; reflexivity.
Qed.
End ImportClaims.

Lemma importJSON_contract_witness :
  let c := Home.collections Home.initial in
  Home.importJSON Home.sample_parse "[1]" c
    = {| Home.c_fields := Home.c_fields c; Home.c_entries := [Home.JNumber "1"] |}
  /\ Home.importJSON Home.sample_parse Home.sample_export c
    = {| Home.c_fields := [];
         Home.c_entries := [Home.JObject [("name", Home.JString "A")]] |}
  /\ Home.importJSON Home.sample_parse "{}" c = c
  /\ Home.importJSON Home.sample_parse "null" c = c
  /\ Home.importJSON Home.sample_parse "" c = c
  /\ Home.importJSON Home.sample_parse "{fields" c = c.
Proof.
  intros c.
  assert (H := importJSON_contract Home.sample_parse eq_refl eq_refl).
  repeat split; rewrite H; reflexivity.
Defined.

(** ** More on toCSV *)

Section CsvMore.
Import JS Csv.
Implicit Types (v s t : string) (row : record) (rows : list record)
  (headers : list string).

Lemma row_line_Some headers row l :
  row_line headers row = Some l ->
  Forall (fun h => get row h <> VInherited) headers.
Proof.
  unfold row_line. intros Hline.
  destruct (mapM _ headers) as [cells|] eqn:Hcells; [|discriminate].
  apply mapM_Some_1 in Hcells. clear Hline.
  induction Hcells as [|h c hs cs Hh _ IH]; constructor; [|exact IH].
  intros Hinh. rewrite Hinh in Hh. discriminate.
Qed.

Lemma push_rows_Some headers rows lines out :
  push_rows headers rows lines = Some out ->
  Forall (fun row => Forall (fun h => get row h <> VInherited) headers) rows.
Proof.
  revert lines. induction rows as [|row rows IH]; intros lines; simpl.
  - constructor.
  - destruct (row_line headers row) as [l|] eqn:Hl; [|discriminate]. simpl.
    intros Hrest. constructor; [by eapply row_line_Some | by eapply IH].
Qed.

(** [toCSV] returns a text exactly when every cell it reads is a string
    or undefined; otherwise [escape] throws on the first cell that is a
    member of the prototype. *)
Theorem toCSV_returns_iff rows :
  is_Some (toCSV rows) <-> string_valued rows.
Proof.
  split.
  - intros [out Hout]. destruct rows as [|first rest]; [done|].
    unfold toCSV in Hout. unfold string_valued.
    destruct (push_rows _ _ _) as [lines|] eqn:Hlines; [|discriminate].
    by eapply push_rows_Some.
  - intros Hrows. rewrite toCSV_encode by done. eauto.
Qed.

Lemma toCSV_returns_iff_witness :
  is_Some (toCSV [ [("name", "A")]; [] ])
  /\ toCSV [ [("valueOf", "A")]; [] ] = None.
Proof.
  split.
  - apply toCSV_returns_iff. repeat constructor; vm_compute; discriminate.
  - destruct (toCSV [ [("valueOf", "A")]; [] ]) as [out|] eqn:Hout; [|done].
    assert (Hsome : is_Some (toCSV [ [("valueOf", "A")]; [] ])) by eauto.
    apply toCSV_returns_iff in Hsome. simpl in Hsome.
    apply Forall_cons in Hsome as [_ Hsecond].
    apply Forall_cons in Hsecond as [Hcell _].
    apply Forall_cons in Hcell as [Hcell _].
    exfalso. apply Hcell. vm_compute. reflexivity.
Defined.

Lemma doubled_dquote v :
  doubled (String dquote v) = String dquote (String dquote (doubled v)).
Proof. reflexivity. Qed.

Lemma doubled_other a v :
  Ascii.eqb a dquote = false -> doubled (String a v) = String a (doubled v).
Proof. intros Ha. unfold doubled. simpl. by rewrite Ha. Qed.

Lemma doubled_inj v1 v2 : doubled v1 = doubled v2 -> v1 = v2.
Proof.
  revert v2. induction v1 as [|a v1 IH]; intros [|b v2].
  - done.
  - destruct (Ascii.eqb b dquote) eqn:Hb.
    + apply Ascii.eqb_eq in Hb as ->. by rewrite doubled_dquote.
    + by rewrite doubled_other.
  - destruct (Ascii.eqb a dquote) eqn:Ha.
    + apply Ascii.eqb_eq in Ha as ->. by rewrite doubled_dquote.
    + by rewrite doubled_other.
  - destruct (Ascii.eqb a dquote) eqn:Ha, (Ascii.eqb b dquote) eqn:Hb.
    + apply Ascii.eqb_eq in Ha as ->. apply Ascii.eqb_eq in Hb as ->.
      rewrite !doubled_dquote. intros [= H]. f_equal. by apply IH.
    + apply Ascii.eqb_eq in Ha as ->.
      rewrite doubled_dquote, doubled_other by done.
      intros [= <- _]. by rewrite Ascii.eqb_refl in Hb.
    + apply Ascii.eqb_eq in Hb as ->.
      rewrite doubled_dquote, doubled_other by done.
      intros [= -> _]. by rewrite Ascii.eqb_refl in Ha.
    + rewrite !doubled_other by done. intros [= -> H]. f_equal. by apply IH.
Qed.

Lemma app_char_inj s t a : s +:+ str1 a = t +:+ str1 a -> s = t.
Proof.
  revert t. induction s as [|b s IH]; intros [|c t]; try done.
  - rewrite app_empty_l, app_String. intros [= _ H]. by destruct t.
  - rewrite app_empty_l, app_String. intros [= _ H]. by destruct s.
  - rewrite !app_String. intros [= -> H]. f_equal. by apply IH.
Qed.

Lemma quoted_eq s : quoted s = String dquote (s +:+ str1 dquote).
Proof. reflexivity. Qed.

(** Two values with one encoding are one value: the cell tells the value
    apart from every other. *)
Theorem escape_inj v1 v2 :
  escape (VString v1) = escape (VString v2) -> v1 = v2.
Proof.
  rewrite !escape_string. intros [= Heq]. unfold encode_value in Heq.
  destruct (test_class special v1) eqn:H1, (test_class special v2) eqn:H2.
  - rewrite !quoted_eq in Heq.
    injection Heq as Heq. by apply doubled_inj, (app_char_inj _ _ dquote).
  - rewrite (doubled_plain v2) in Heq by done. subst v2.
    by rewrite quoted_eq in H2.
  - rewrite (doubled_plain v1) in Heq by done. subst v1.
    by rewrite quoted_eq in H1.
  - by rewrite !doubled_plain in Heq.
Qed.

Lemma escape_inj_witness : "a,b" = "a,b".
Proof. apply escape_inj. reflexivity. Defined.

Lemma join_empties n : join (str1 LF) (replicate (S n) "") = newlines n.
Proof.
  induction n as [|n IH]; [done|].
  change (join (str1 LF) (replicate (S (S n)) ""))
    with ("" +:+ str1 LF +:+ join (str1 LF) (replicate (S n) "")).
  by rewrite IH.
Qed.

(** When the first row has no key, no value of any row is written: the
    text is one newline per row. *)
Theorem toCSV_first_row_without_keys rest :
  toCSV ([] :: rest) = Some (newlines (S (length rest))).
Proof.
  rewrite toCSV_encode by (simpl; apply Forall_forall; intros; constructor).
  rewrite <- join_empties. unfold encode. do 2 f_equal.
  change (Object_keys []) with (@nil string).
  change (replicate (S (S (length rest))) "")
    with ("" :: replicate (length ([] :: rest : list record)) "").
  f_equal. generalize ([] :: rest : list record). intros rows.
  induction rows as [|r rows IH]; [done|]. simpl. by f_equal.
Qed.
End CsvMore.

(** ** More on parseBookmarkletPairs *)

Section ParseMore.
Import JS Bookmarklet.
Implicit Types (s t cur text : string) (cls : ascii -> bool).

Lemma test_class_rev_app cls s t :
  test_class cls (String.rev_app s t) = test_class cls s || test_class cls t.
Proof.
  revert t. induction s as [|a s IH]; intros t; [done|]. simpl.
  rewrite IH. simpl. by destruct (cls a), (test_class cls s), (test_class cls t).
Qed.

Lemma test_class_rev cls s : test_class cls (String.rev s) = test_class cls s.
Proof. unfold String.rev. by rewrite test_class_rev_app, orb_false_r. Qed.

Lemma test_class_mono (p q : ascii -> bool) s :
  (forall a, p a = true -> q a = true) ->
  test_class q s = false -> test_class p s = false.
Proof.
  intros Hpq. induction s as [|a s IH]; [done|]. simpl.
  intros [Ha Hs]%orb_false_iff. rewrite IH by done.
  destruct (p a) eqn:Hp; [|done]. by rewrite (Hpq a Hp) in Ha.
Qed.

Lemma test_class_trimStart cls s :
  test_class cls s = false -> test_class cls (trimStart s) = false.
Proof.
  induction s as [|a s IH]; [done|]. simpl.
  intros [Ha Hs]%orb_false_iff.
  destruct (is_whitespace a); [by apply IH|]. simpl. by rewrite Ha, Hs.
Qed.

Lemma test_class_trim cls s :
  test_class cls s = false -> test_class cls (trim s) = false.
Proof.
  intros Hs. unfold trim. rewrite test_class_rev.
  apply test_class_trimStart. rewrite test_class_rev.
  by apply test_class_trimStart.
Qed.

Lemma separator_not_whitespace a : is_separator a = true -> is_whitespace a = false.
Proof.
  unfold is_separator. intros [H|H]%orb_true_iff; by apply Ascii.eqb_eq in H as ->.
Qed.

(** Where the pattern finds no match, the first code unit is no
    separator. *)
Lemma re_separator_unmatched a s :
  match re_separator (String a s) with Some (S _) => False | _ => True end ->
  is_separator a = false.
Proof.
  simpl. destruct (is_separator a) eqn:Ha; [|done].
  by rewrite (separator_not_whitespace a Ha).
Qed.

(** No piece of a line cut at the separators holds a separator. *)
Lemma split_separator_pieces s skip cur :
  test_class is_separator cur = false ->
  Forall (fun p => test_class is_separator p = false)
         (split_go re_separator skip cur s).
Proof.
  revert skip cur. induction s as [|a s IH]; intros skip cur Hcur.
  - simpl. constructor; [by rewrite test_class_rev | constructor].
  - cbn [split_go]. destruct skip as [|k]; [|by apply IH].
    pose proof (re_separator_unmatched a s) as Hun.
    destruct (re_separator (String a s)) as [[|k]|].
    + apply IH. simpl. by rewrite Hun.
    + constructor; [by rewrite test_class_rev | by apply IH].
    + apply IH. simpl. by rewrite Hun.
Qed.

(** Every pair the parser returns has a selector that is not empty and
    holds neither [=] nor [:], and a value without [=]: a selector with
    an attribute test, or a value with a query string, cannot come out
    whole. *)
Theorem parseBookmarkletPairs_no_separator text p :
  p ∈ parseBookmarkletPairs text ->
  selector p <> ""
  /\ test_class is_separator (selector p) = false
  /\ test_class (fun a => Ascii.eqb a "="%char) (value p) = false.
Proof.
  unfold parseBookmarkletPairs. intros Hp.
  apply list_elem_of_filter in Hp as [Hsel Hp].
  split; [by destruct (selector p)|].
  apply list_elem_of_omap in Hp as (line & _ & Hline).
  unfold line_pair, split_regex in Hline.
  pose proof (split_separator_pieces line 0 "" eq_refl) as Hpieces.
  destruct (split_go re_separator 0 "" line) as [|sel rest]; [discriminate|].
  injection Hline as <-. simpl.
  apply Forall_cons in Hpieces as [Hfirst Hrest]. split; [done|].
  apply test_class_join; [done|].
  eapply Forall_impl; [exact Hrest|]. intros piece Hpiece. simpl in Hpiece.
  eapply test_class_mono; [|exact Hpiece].
  intros a Ha. unfold is_separator. by rewrite Ha.
Qed.

Lemma parseBookmarkletPairs_no_separator_witness :
  test_class is_separator "#q" = false.
Proof.
  apply (parseBookmarkletPairs_no_separator "#q = a=b"
           {| selector := "#q"; value := "a: b" |}).
  vm_compute. left.
Defined.

Lemma split_newline_whole s cur :
  test_class (fun a => Ascii.eqb a LF) s = false ->
  split_go re_newline 0 cur s = [String.rev_app cur s].
Proof.
  revert cur. induction s as [|a s IH]; intros cur; [done|].
  simpl. intros [Ha Hs]%orb_false_iff. rewrite Ha.
  assert (Hnone : (if Ascii.eqb a CR
                   then match s with
                        | String b _ => if Ascii.eqb b LF then Some 2 else None
                        | "" => None
                        end
                   else None) = None).
  { destruct (Ascii.eqb a CR); [|done]. destruct s as [|b s]; [done|].
    simpl in Hs. apply orb_false_iff in Hs as [-> _]. done. }
  rewrite Hnone. by apply IH.
Qed.

Lemma re_separator_none s :
  test_class is_separator s = false -> re_separator s = None.
Proof.
  induction s as [|a s IH]; [done|]. simpl.
  intros [Ha Hs]%orb_false_iff. rewrite Ha, IH by done.
  by destruct (is_whitespace a).
Qed.

Lemma split_separator_whole s cur :
  test_class is_separator s = false ->
  split_go re_separator 0 cur s = [String.rev_app cur s].
Proof.
  revert cur. induction s as [|a s IH]; intros cur Hs; [done|].
  cbn [split_go]. rewrite re_separator_none by done.
  simpl in Hs. apply orb_false_iff in Hs as [_ Hs]. by apply IH.
Qed.

(** A single line without [=] and [:] is taken whole as a selector, its
    outer whitespace removed, with the empty value. *)
Theorem parseBookmarkletPairs_plain_line text :
  test_class (fun a => Ascii.eqb a LF) text = false ->
  test_class is_separator text = false ->
  trim text <> "" ->
  parseBookmarkletPairs text = [ {| selector := trim text; value := "" |} ].
Proof.
  intros Hline Hsep Hfull. unfold parseBookmarkletPairs, split_regex.
  rewrite split_newline_whole by done.
  change (String.rev_app "" text) with text.
  change (trim <$> [text]) with [trim text].
  assert (Htruthy : truthy (trim text) = true) by by destruct (trim text).
  rewrite filter_cons_True, filter_nil by done.
  change (omap line_pair [trim text])
    with (match line_pair (trim text) with
          | Some p => [p] | None => []
          end).
  unfold line_pair, split_regex.
  rewrite split_separator_whole by by apply test_class_trim.
  change (String.rev_app "" (trim text)) with (trim text).
  by rewrite filter_cons_True, filter_nil.
Qed.

Lemma parseBookmarkletPairs_plain_line_witness :
  parseBookmarkletPairs "  #submit " = [ {| selector := "#submit"; value := "" |} ].
Proof.
  apply (parseBookmarkletPairs_plain_line "  #submit "); vm_compute;
    [reflexivity | reflexivity | discriminate].
Defined.

Lemma split_go_class (re : string -> option nat) cls s skip cur :
  test_class cls cur = false -> test_class cls s = false ->
  Forall (fun p => test_class cls p = false) (split_go re skip cur s).
Proof.
  revert skip cur. induction s as [|a s IH]; intros skip cur Hcur Hs.
  - simpl. constructor; [by rewrite test_class_rev | constructor].
  - simpl in Hs. apply orb_false_iff in Hs as [Ha Hs].
    cbn [split_go]. destruct skip as [|k]; [|by apply IH].
    destruct (re (String a s)) as [[|k]|].
    + apply IH; [|done]. simpl. by rewrite Ha.
    + constructor; [by rewrite test_class_rev | by apply IH].
    + apply IH; [|done]. simpl. by rewrite Ha.
Qed.

Lemma trim_blank s : test_class not_whitespace s = false -> trim s = "".
Proof.
  intros Hs. unfold trim.
  assert (Hstart : forall t, test_class not_whitespace t = false -> trimStart t = "").
  { induction t as [|a t IH]; [done|]. simpl. unfold not_whitespace at 1.
    intros [Ha Ht]%orb_false_iff. apply negb_false_iff in Ha. rewrite Ha.
    by apply IH. }
  by rewrite (Hstart s Hs).
Qed.

(** A text of whitespace only, on any number of lines, gives no pair. *)
Theorem parseBookmarkletPairs_blank text :
  test_class not_whitespace text = false -> parseBookmarkletPairs text = [].
Proof.
  intros Hblank. unfold parseBookmarkletPairs, split_regex.
  pose proof (split_go_class re_newline not_whitespace text 0 "" eq_refl Hblank)
    as Hpieces.
  assert (Hnone : filter (fun l => truthy l = true)
                    (trim <$> split_go re_newline 0 "" text) = []).
  { induction Hpieces as [|piece pieces Hpiece _ IH]; [done|].
    rewrite fmap_cons, (trim_blank piece Hpiece).
    by rewrite filter_cons_False. }
  by rewrite Hnone.
Qed.

Lemma parseBookmarkletPairs_blank_witness :
  parseBookmarkletPairs ("  " +:+ str1 LF +:+ str1 CR +:+ str1 LF +:+ " ") = [].
Proof. apply parseBookmarkletPairs_blank. vm_compute. reflexivity. Defined.
End ParseMore.

(** ** More on the fields and the draft *)

Section StoreMore.
Import JS Home.
Implicit Types (fs : list Field) (o : Entry) (k : string) (st : Store).

Lemma ensure_keys_ext fs fs' o : ids fs = ids fs' -> ensure_keys fs o = ensure_keys fs' o.
Proof.
  intros Hids. apply map_eq. intros k. by rewrite !ensure_keys_lookup, Hids.
Qed.

Lemma ensure_keys_dom fs o :
  Forall (fun f => inherited (id f) = false) fs ->
  dom (ensure_keys fs o) = list_to_set (ids fs).
Proof.
  intros Hplain. apply set_eq. intros k.
  rewrite elem_of_dom, elem_of_list_to_set, ensure_keys_lookup.
  case_bool_decide as Hin; [|split; [intros [? ?]; discriminate | done]].
  split; [done|]. intros _. destruct (o !! k); [eauto|].
  assert (inherited k = false) as ->; [|eauto].
  unfold ids in Hin. apply list_elem_of_fmap in Hin as [f [-> Hf]].
  rewrite Forall_forall in Hplain. by apply Hplain.
Qed.

Lemma ensure_keys_fixed fs o :
  dom o = list_to_set (ids fs) -> ensure_keys fs o = o.
Proof.
  intros Hdom. apply map_eq. intros k. rewrite ensure_keys_lookup.
  assert (Hk : k ∈ ids fs <-> is_Some (o !! k)).
  { by rewrite <- elem_of_dom, Hdom, elem_of_list_to_set. }
  case_bool_decide as Hin.
  - apply Hk in Hin as [v Hv]. by rewrite Hv.
  - destruct (o !! k) eqn:Ho; [|done]. exfalso. apply Hin, Hk. eauto.
Qed.

(** Running the effect again changes nothing: what it leaves is a fixed
    point, for every field list and every draft. *)
Theorem ensure_keys_idempotent fs o :
  ensure_keys fs (ensure_keys fs o) = ensure_keys fs o.
Proof.
  apply map_eq. intros k. rewrite !ensure_keys_lookup.
  case_bool_decide; [|done]. destruct (o !! k); [done|].
  by destruct (inherited k).
Qed.

Lemma uid_field_plain r36 : inherited (uid "field" r36) = false.
Proof.
  unfold inherited, uid. apply bool_decide_eq_false.
  rewrite !app_String. unfold Object_prototype_names. intros Hin.
  repeat (apply elem_of_cons in Hin as [Heq|Hin]; [discriminate|]).
  inversion Hin.
Qed.

Lemma ids_setLabel i l fs :
  ids ((fun x => if decide (id x = i)
                 then {| id := id x; label := l; type := type x |} else x)
       <$> fs) = ids fs.
Proof.
  unfold ids. rewrite <- list_fmap_compose. apply list_fmap_ext.
  intros j x _. simpl. by destruct (decide (id x = i)).
Qed.

Lemma ids_setType i t fs :
  ids ((fun x => if decide (id x = i)
                 then {| id := id x; label := label x; type := t |} else x)
       <$> fs) = ids fs.
Proof.
  unfold ids. rewrite <- list_fmap_compose. apply list_fmap_ext.
  intros j x _. simpl. by destruct (decide (id x = i)).
Qed.

Lemma plain_ids fs fs' :
  ids fs' ⊆ ids fs ->
  Forall (fun f => inherited (id f) = false) fs ->
  Forall (fun f => inherited (id f) = false) fs'.
Proof.
  intros Hsub Hplain. apply Forall_forall. intros f' Hf'.
  assert (Hin : id f' ∈ ids fs) by (apply Hsub, list_elem_of_fmap; eauto).
  apply list_elem_of_fmap in Hin as [f [Heq Hf]]. rewrite Heq.
  rewrite Forall_forall in Hplain. by apply Hplain.
Qed.

(** The two facts that hold in every state the page reaches. *)
Lemma perform_keeps_keys a st :
  keys_match st /\ Forall (fun f => inherited (id f) = false) (fields st) ->
  offered a st ->
  keys_match (perform a st)
  /\ Forall (fun f => inherited (id f) = false) (fields (perform a st)).
Proof.
  intros [Hkeys Hplain] Hoffered. unfold keys_match in *.
  destruct a as [i v|i l|i t|i|r36| | |idx]; simpl in *.
  - split; [|done]. rewrite dom_insert_L, Hkeys.
    apply (elem_of_list_to_set (C := gset string)) in Hoffered.
    apply set_eq. intros k. rewrite elem_of_union, elem_of_singleton.
    split; [intros [->|Hk]; done | by right].
  - assert (Hp : Forall (fun f => inherited (id f) = false)
        ((fun x => if decide (id x = i)
                   then {| id := id x; label := l; type := type x |} else x)
         <$> fields st)).
    { eapply plain_ids; [|exact Hplain]. by rewrite ids_setLabel. }
    split; [by apply ensure_keys_dom | done].
  - assert (Hp : Forall (fun f => inherited (id f) = false)
        ((fun x => if decide (id x = i)
                   then {| id := id x; label := label x; type := t |} else x)
         <$> fields st)).
    { eapply plain_ids; [|exact Hplain]. by rewrite ids_setType. }
    split; [by apply ensure_keys_dom | done].
  - assert (Hp : Forall (fun f => inherited (id f) = false)
                   (filter (fun f => id f ≠ i) (fields st))).
    { apply Forall_forall. intros f [_ Hf]%list_elem_of_filter.
      rewrite Forall_forall in Hplain. by apply Hplain. }
    split; [by apply ensure_keys_dom | done].
  - assert (Hp : Forall (fun f => inherited (id f) = false)
        (fields st ++ [ {| id := uid "field" r36; label := "??? ??????";
                           type := text |} ])).
    { apply Forall_app. split; [done|].
      constructor; [apply uid_field_plain | constructor]. }
    split; [by apply ensure_keys_dom | done].
  - split; [apply blank_entry_dom | done].
  - split; [apply blank_entry_dom | done].
  - done.
Qed.

(** In every state the page reaches through its own controls, starting
    from the default fields, the keys of the draft are exactly the ids of
    the fields, and no field id is a name inherited from the prototype. *)
Theorem reachable_keys_match st :
  reachable st ->
  keys_match st /\ Forall (fun f => inherited (id f) = false) (fields st).
Proof.
  induction 1 as [|st a _ IH Hoffered].
  - split; [apply blank_entry_dom|]. by repeat constructor.
  - by apply perform_keeps_keys.
Qed.

Lemma reachable_keys_match_witness :
  keys_match
    (perform (Remove_field "phone")
       (perform (Add_field "0.4fzyo82mvyr")
          (perform (Type_value "name" "A") initial))).
Proof.
  apply reachable_keys_match.
  apply reachable_step;
    [apply reachable_step;
      [apply reachable_step; [apply reachable_initial|]|]|];
    cbn [offered]; try exact I;
    apply (bool_decide_unpack _); vm_compute; exact I.
Defined.

(** [removeField] takes out every field with that id and keeps the others
    in their order; the draft loses its value for the id and keeps the
    value of every other field that had one. *)
Theorem removeField_effect i st :
  let st' := removeField i st in
  fields st' = filter (fun f => id f ≠ i) (fields st)
  /\ (i ∉ ids (fields st'))
  /\ entry st' !! i = None
  /\ (forall k v, k ≠ i -> k ∈ ids (fields st) -> entry st !! k = Some v ->
        entry st' !! k = Some v).
Proof.
  simpl.
  assert (Hout : i ∉ ids (filter (fun f => id f ≠ i) (fields st))).
  { unfold ids. intros [f [Hid Hf]]%list_elem_of_fmap.
    apply list_elem_of_filter in Hf as [Hne _]. by apply Hne. }
  split; [done|]. split; [done|]. split.
  - rewrite ensure_keys_lookup. by rewrite bool_decide_eq_false_2.
  - intros k v Hne Hin Hv. rewrite ensure_keys_lookup, Hv.
    rewrite bool_decide_eq_true_2; [done|].
    unfold ids in *. apply list_elem_of_fmap in Hin as [f [-> Hf]].
    apply list_elem_of_fmap. exists f. split; [done|].
    by apply list_elem_of_filter.
Qed.

Lemma removeField_effect_witness :
  let st := updateValue "email" "b@c.com" (updateValue "name" "A" initial) in
  entry (removeField "email" st) !! "name" = Some "A".
Proof.
  intros st.
  destruct (removeField_effect "email" st) as (_ & _ & _ & Hkeep).
  apply Hkeep; [discriminate | | vm_compute; reflexivity].
  apply (bool_decide_unpack _). vm_compute. exact I.
Defined.

Lemma filter_all {A} (P : A -> Prop) `{forall x, Decision (P x)} (l : list A) :
  Forall P l -> filter P l = l.
Proof.
  induction 1 as [|x l Hx _ IH]; [done|].
  by rewrite filter_cons_True, IH.
Qed.

(** Removing the field that [addField] has just added gives back the
    state before, when the draft matched the fields and the new id was
    not in use. *)
Theorem addField_then_removeField r36 st :
  keys_match st ->
  uid "field" r36 ∉ ids (fields st) ->
  removeField (uid "field" r36) (addField r36 st) = st.
Proof.
  intros Hkeys Hfresh. destruct st as [fs e es]. unfold keys_match in Hkeys.
  simpl in *. unfold removeField, addField, setFields. simpl.
  assert (Hfs : filter (fun f => id f ≠ uid "field" r36)
                  (fs ++ [ {| id := uid "field" r36; label := "??? ??????";
                              type := text |} ]) = fs).
  { rewrite filter_app, filter_cons_False, filter_nil, app_nil_r
      by (simpl; intros Hne; by apply Hne).
    apply filter_all, Forall_forall. intros f Hf Heq.
    apply Hfresh. rewrite <- Heq. apply list_elem_of_fmap. eauto. }
  rewrite Hfs. f_equal. apply map_eq. intros k.
  assert (Hk : k ∈ ids fs <-> is_Some (e !! k)).
  { by rewrite <- elem_of_dom, Hkeys, elem_of_list_to_set. }
  rewrite !ensure_keys_lookup. case_bool_decide as Hin.
  - rewrite bool_decide_eq_true_2.
    + apply Hk in Hin as [v Hv]. by rewrite Hv.
    + unfold ids in *. rewrite fmap_app. apply elem_of_app. by left.
  - destruct (e !! k) eqn:He; [|done]. exfalso. apply Hin, Hk. eauto.
Qed.

Lemma addField_then_removeField_witness :
  removeField (uid "field" "0.4fzyo82mvyr") (addField "0.4fzyo82mvyr" initial)
  = initial.
Proof.
  apply addField_then_removeField.
  - apply blank_entry_dom.
  - apply (bool_decide_unpack _). vm_compute. exact I.
Defined.

(** Editing the label or the type of a field leaves the draft as it is
    when its keys match the fields, and never changes an id. *)
Theorem setLabel_setType_keep_draft i l t st :
  keys_match st ->
  entry (setLabel i l st) = entry st
  /\ entry (setType i t st) = entry st
  /\ ids (fields (setLabel i l st)) = ids (fields st)
  /\ ids (fields (setType i t st)) = ids (fields st).
Proof.
  intros Hkeys. simpl. rewrite ids_setLabel, ids_setType.
  split; [|split; [|done]].
  - rewrite (ensure_keys_ext _ (fields st)) by apply ids_setLabel.
    by apply ensure_keys_fixed.
  - rewrite (ensure_keys_ext _ (fields st)) by apply ids_setType.
    by apply ensure_keys_fixed.
Qed.

Lemma setLabel_setType_keep_draft_witness :
  let st := updateValue "name" "A" initial in
  entry (setLabel "name" "Full name" st) = entry st.
Proof.
  intros st. apply (setLabel_setType_keep_draft "name" "Full name" text st).
  apply (perform_keeps_keys (Type_value "name" "A") initial).
  - split; [apply blank_entry_dom | by repeat constructor].
  - cbn [offered]. apply (bool_decide_unpack _). vm_compute. exact I.
Defined.

Lemma filter_index_kept {A} (keep : nat -> bool) i (l : list A) :
  (forall j, i <= j < i + length l -> keep j = true) -> filter_index keep i l = l.
Proof.
  revert i. induction l as [|x l IH]; intros i Hkeep; simpl; [done|].
  rewrite Hkeep by (simpl; lia). f_equal. apply IH.
  intros j Hj. apply Hkeep. simpl. lia.
Qed.

(** [deleteSavedEntry(idx)] takes out the row at [idx] and moves the rows
    after it up by one; the rows before it, the fields and the draft stay.
    An [idx] past the end changes nothing. *)
Theorem deleteSavedEntry_effect idx st :
  let st' := deleteSavedEntry idx st in
  fields st' = fields st
  /\ entry st' = entry st
  /\ (forall j, entries st' !! j
               = if decide (j < idx) then entries st !! j
                 else entries st !! S j)
  /\ (length (entries st) <= idx -> st' = st).
Proof.
  simpl. split; [done|]. split; [done|].
  pose proof (filter_index_delete idx 0 (entries st)) as Hdel.
  simpl in Hdel. split.
  - intros j. rewrite Hdel. case_decide.
    + by apply list_lookup_delete_lt.
    + apply list_lookup_delete_ge. lia.
  - intros Hlen. unfold deleteSavedEntry.
    rewrite filter_index_kept; [by destruct st|].
    intros j Hj. apply negb_true_iff, Nat.eqb_neq. lia.
Qed.

Lemma deleteSavedEntry_effect_witness :
  let st := saveEntry (updateValue "name" "B" (saveEntry (updateValue "name" "A" initial))) in
  deleteSavedEntry 5 st = st.
Proof.
  intros st. apply (deleteSavedEntry_effect 5 st). simpl. lia.
Defined.
End StoreMore.

(** ** Storage, import and export *)

Section PersistenceMore.
Import JS Home.
Variable JSON_parse : string -> option json.
Variable JSON_stringify : json -> string.
Implicit Types (c : Collections) (items : Storage).

(** A load never leaves the page without fields: a stored field list is
    taken only when it is a non-empty array. *)
Theorem load_fields_never_empty storage c :
  c_fields c <> [] -> c_fields (load JSON_parse storage c) <> [].
Proof.
  intros Hc. unfold load. destruct storage as [items|]; [|done].
  destruct (items !! STORAGE_KEYS_fields) as [[|a text]|];
    destruct (items !! STORAGE_KEYS_entries) as [[|b text']|]; try done.
  all: repeat match goal with
       | |- context [JSON_parse ?t] => destruct (JSON_parse t) as [[| | | |[|? ?]|]|]
       end; simpl; done.
Qed.

(** When the stored field list does not parse, nothing is loaded: the
    stored entries are not read either, even if they are sound. *)
Theorem load_corrupt_fields items text c :
  items !! STORAGE_KEYS_fields = Some text ->
  text <> "" ->
  JSON_parse text = None ->
  load JSON_parse (Some items) c = c.
Proof.
  intros Hf Hne Hparse. unfold load. rewrite Hf.
  destruct text as [|a text]; [done|]. by rewrite Hparse.
Qed.

(** What the persist effects write, the load effect reads back: the
    entries always, the fields unless the list is empty, in which case
    the fields in memory stay. *)
Theorem persist_then_load c items c0 :
  JSON_parse (JSON_stringify (JArray (c_fields c))) = Some (JArray (c_fields c)) ->
  JSON_parse (JSON_stringify (JArray (c_entries c))) = Some (JArray (c_entries c)) ->
  JSON_stringify (JArray (c_fields c)) <> "" ->
  JSON_stringify (JArray (c_entries c)) <> "" ->
  load JSON_parse (Some (persist JSON_stringify c items)) c0
  = {| c_fields := match c_fields c with [] => c_fields c0 | _ => c_fields c end;
       c_entries := c_entries c |}.
Proof.
  intros Hpf Hpe Hnf Hne. unfold load, persist.
  rewrite lookup_insert_eq.
  rewrite lookup_insert_ne by done. rewrite lookup_insert_eq.
  destruct (JSON_stringify (JArray (c_fields c))) as [|a tf] eqn:Hf; [done|].
  destruct (JSON_stringify (JArray (c_entries c))) as [|b te] eqn:He; [done|].
  rewrite Hpf, Hpe. by destruct (c_fields c).
Qed.

(** Importing the file [exportEntriesJSON] offers restores the fields
    and the entries it was made from, whatever the page holds. *)
Theorem export_then_import c c0 :
  JSON_parse (JSON_stringify (export_object c)) = Some (export_object c) ->
  JSON_stringify (export_object c) <> "" ->
  match exportEntriesJSON JSON_stringify c with
  | Download filename content mime =>
      filename = "data.json" /\ mime = "application/json"
      /\ importJSON JSON_parse content c0 = c
  | _ => False
  end.
Proof.
  intros Hparse Hne. unfold exportEntriesJSON. do 2 (split; [done|]).
  unfold importJSON.
  destruct (JSON_stringify (export_object c)) as [|a text] eqn:Htext; [done|].
  rewrite Hparse. simpl. by destruct c.
Qed.

(** Importing the same file a second time changes nothing more. *)
Theorem importJSON_idempotent text c :
  importJSON JSON_parse text (importJSON JSON_parse text c)
  = importJSON JSON_parse text c.
Proof.
  unfold importJSON.
  destruct (JSON_parse match text with "" => "{}" | _ => text end)
    as [obj|]; [|done].
  destruct obj as [| | | |items|props]; try done. simpl.
  destruct (own_property props "fields") as [[| | | |fs|]|]; try done. simpl.
  destruct (own_property props "entries") as [[| | | |es|]|]; done.
Qed.
End PersistenceMore.

Lemma load_fields_never_empty_witness :
  let items : Home.Storage :=
    {[ Home.STORAGE_KEYS_fields := "[]"; Home.STORAGE_KEYS_entries := "[1]" ]} in
  Home.c_fields (Home.load Home.sample_parse (Some items)
                   (Home.collections Home.initial)) <> [].
Proof.
  intros items. apply load_fields_never_empty. discriminate.
Defined.

Lemma load_corrupt_fields_witness :
  let items : Home.Storage :=
    {[ Home.STORAGE_KEYS_fields := "[{"; Home.STORAGE_KEYS_entries := "[1]" ]} in
  Home.load Home.sample_parse (Some items) (Home.collections Home.initial)
  = Home.collections Home.initial.
Proof.
  intros items.
  apply (load_corrupt_fields Home.sample_parse items "[{");
    [vm_compute; reflexivity | discriminate | reflexivity].
Defined.

Lemma persist_then_load_witness :
  let c := {| Home.c_fields := []; Home.c_entries := [Home.JNumber "1"] |} in
  Home.load Home.sample_parse_arrays
    (Some (Home.persist Home.sample_stringify c ∅)) (Home.collections Home.initial)
  = {| Home.c_fields := Home.c_fields (Home.collections Home.initial);
       Home.c_entries := [Home.JNumber "1"] |}.
Proof.
  intros c.
  rewrite (persist_then_load Home.sample_parse_arrays Home.sample_stringify c);
    [reflexivity | reflexivity | reflexivity | discriminate | discriminate].
Defined.

Lemma export_then_import_witness :
  let c := {| Home.c_fields := [];
              Home.c_entries := [Home.JObject [("name", Home.JString "A")]] |} in
  Home.importJSON Home.sample_parse (Home.sample_stringify (Home.export_object c))
    (Home.collections Home.initial) = c.
Proof.
  intros c.
  pose proof (export_then_import Home.sample_parse Home.sample_stringify c
                (Home.collections Home.initial)) as H.
  unfold Home.exportEntriesJSON in H. apply H; [reflexivity | discriminate].
Defined.

(** ** exportEntriesCSV *)

Section ExportMore.
Import JS Home.
Implicit Types (o : object) (k : string) (st : Store) (en : Entry).

Lemma own_value_None o k : k ∉ o.*1 -> own_value o k = None.
Proof.
  induction o as [|[k' v] o IH]; [done|]. rewrite fmap_cons. simpl.
  intros Hk. apply not_elem_of_cons in Hk as [Hne Hk].
  rewrite decide_False by done. by apply IH.
Qed.

(** Keys that are all different and none an array index keep the order
    in which they are given. *)
Lemma fromEntries_fold_plain (pairs : list (string * jsval)) o :
  NoDup (o.*1 ++ pairs.*1) ->
  Forall (fun kv => array_index kv.1 = None) pairs ->
  foldl (fun o kv => define_property o kv.1 kv.2) o pairs = o ++ pairs.
Proof.
  revert o. induction pairs as [|[k v] pairs IH]; intros o Hnd Hplain.
  - by rewrite app_nil_r.
  - apply Forall_cons in Hplain as [Hk Hplain]. simpl in Hk.
    rewrite fmap_cons in Hnd. simpl in Hnd.
    apply NoDup_app in Hnd as (Ho & Hdisj & Hnd).
    apply NoDup_cons in Hnd as [Hkrest Hrest].
    cbn [foldl]. unfold define_property at 2. simpl.
    rewrite own_value_None, Hk.
    + rewrite IH; [by rewrite <- app_assoc | | done].
      rewrite fmap_app. simpl. rewrite <- app_assoc. simpl.
      apply NoDup_app. split; [done|]. split; [|by apply NoDup_cons].
      intros x Hx. by apply Hdisj.
    + intros Hin. apply (Hdisj k Hin). left.
Qed.

Lemma object_fromEntries_plain (pairs : list (string * jsval)) :
  NoDup pairs.*1 ->
  Forall (fun kv => array_index kv.1 = None) pairs ->
  object_fromEntries pairs = pairs.
Proof.
  intros Hnd Hplain. unfold object_fromEntries.
  by rewrite fromEntries_fold_plain.
Qed.

Lemma own_value_of_record (r : Csv.record) k :
  own_value (Csv.of_record r) k = VString <$> Csv.own r k.
Proof.
  induction r as [|[k' v] r IH]; [done|]. simpl.
  by destruct (decide (k' = k)).
Qed.

Lemma get_property_of_record (r : Csv.record) k :
  get_property (Csv.of_record r) k = Csv.get r k.
Proof.
  unfold get_property, Csv.get. rewrite own_value_of_record.
  by destruct (Csv.own r k).
Qed.

Lemma push_rows_any_of_record headers (rows : list Csv.record) lines :
  Csv.push_rows_any headers (Csv.of_record <$> rows) lines
  = Csv.push_rows headers rows lines.
Proof.
  revert lines. induction rows as [|row rows IH]; intros lines; [done|].
  rewrite fmap_cons. simpl.
  assert (Hline : Csv.row_line_any headers (Csv.of_record row)
                  = Csv.row_line headers row).
  { unfold Csv.row_line_any, Csv.row_line. f_equal.
    apply mapM_ext. intros h. by rewrite get_property_of_record. }
  rewrite Hline. destruct (Csv.row_line headers row); [apply IH | done].
Qed.

(** On rows of strings the two readings of [toCSV] agree. *)
Lemma toCSV_any_of_record (rows : list Csv.record) :
  Csv.toCSV_any (Csv.of_record <$> rows) = Csv.toCSV rows.
Proof.
  destruct rows as [|first rest]; [done|].
  unfold Csv.toCSV_any, Csv.toCSV. rewrite fmap_cons.
  assert (Hkeys : (Csv.of_record first).*1 = Csv.Object_keys first).
  { unfold Csv.of_record, Csv.Object_keys. rewrite <- list_fmap_compose.
    by apply list_fmap_ext. }
  rewrite Hkeys. rewrite <- fmap_cons. by rewrite push_rows_any_of_record.
Qed.

Lemma own_by_label (value : Field -> string) (fs : list Field) f :
  NoDup (label <$> fs) -> f ∈ fs ->
  Csv.own ((fun f => (label f, value f)) <$> fs) (label f) = Some (value f).
Proof.
  induction fs as [|g fs IH]; intros Hnd Hf; [by inversion Hf|].
  rewrite fmap_cons in Hnd. apply NoDup_cons in Hnd as [Hg Hnd].
  rewrite fmap_cons. simpl. apply elem_of_cons in Hf as [->|Hf].
  - by rewrite decide_True.
  - rewrite decide_False; [by apply IH|].
    intros Heq. apply Hg. rewrite Heq. apply list_elem_of_fmap. eauto.
Qed.

(** With at least one saved entry, labels that are all different and
    none a number the engine treats as an array index, and no field id
    that names a member of the prototype, the export offers "data.csv":
    the labels in the order of the fields, then one line per saved entry
    with the encoded value of each field, empty where the entry has
    none.  Keys of an entry that belong to no field are not exported. *)
Theorem exportEntriesCSV_plain st :
  entries st <> [] ->
  NoDup (label <$> fields st) ->
  Forall (fun f => array_index (label f) = None) (fields st) ->
  Forall (fun f => inherited (id f) = false) (fields st) ->
  exportEntriesCSV st
  = Download "data.csv"
      (join (str1 LF)
         (join (str1 comma) (label <$> fields st)
          :: ((fun en =>
                 join (str1 comma)
                   ((fun f => Csv.encode_value (default "" (en !! id f)))
                    <$> fields st))
              <$> entries st)))
      "text/csv;charset=utf-8".
Proof.
  intros Hsome Hnd Hindex Hplain. unfold exportEntriesCSV.
  destruct (entries st) as [|en0 ens] eqn:Hentries; [done|].
  rewrite <- Hentries. clear Hsome.
  set (strings := fun en : Entry =>
         (fun f => (label f, default "" (en !! id f))) <$> fields st).
  assert (Hrows : (fun en => object_fromEntries
                     ((fun f => (label f, export_cell en f)) <$> fields st))
                  <$> entries st
                  = Csv.of_record <$> (strings <$> entries st)).
  { rewrite <- list_fmap_compose. apply list_fmap_ext. intros _ en _. simpl.
    rewrite object_fromEntries_plain.
    - unfold strings, Csv.of_record. rewrite <- list_fmap_compose.
      apply Forall_fmap_ext_1. eapply Forall_impl; [exact Hplain|].
      intros f Hf. simpl. unfold export_cell, get. rewrite Hf.
      by destruct (en !! id f).
    - by rewrite <- list_fmap_compose.
    - apply Forall_fmap. eapply Forall_impl; [exact Hindex|]. done. }
  rewrite Hrows, toCSV_any_of_record.
  assert (Hkeys : forall en, Csv.Object_keys (strings en) = label <$> fields st).
  { intros en. unfold Csv.Object_keys, strings.
    by rewrite <- list_fmap_compose. }
  assert (Hline : forall en,
            Csv.encode_row (label <$> fields st) (strings en)
            = join (str1 comma)
                ((fun f => Csv.encode_value (default "" (en !! id f)))
                 <$> fields st)).
  { intros en. unfold Csv.encode_row. f_equal.
    rewrite <- list_fmap_compose. apply Forall_fmap_ext_1, Forall_forall.
    intros f Hf. simpl. unfold strings.
    by rewrite (own_by_label (fun f => default "" (en !! id f))). }
  rewrite toCSV_encode.
  - do 2 f_equal. rewrite Hentries. rewrite (fmap_cons strings).
    unfold Csv.encode. rewrite Hkeys. do 2 f_equal.
    rewrite <- (fmap_cons strings), <- list_fmap_compose.
    apply list_fmap_ext. intros _ en _. apply Hline.
  - rewrite Hentries, fmap_cons. unfold Csv.string_valued.
    rewrite Hkeys, <- fmap_cons. apply Forall_fmap, Forall_forall.
    intros en _. simpl. apply Forall_fmap, Forall_forall. intros f Hf. simpl.
    unfold Csv.get, strings.
    by rewrite (own_by_label (fun f => default "" (en !! id f))).
Qed.

Lemma exportEntriesCSV_plain_witness :
  let st := {| fields := [ {| id := "name"; label := "Name"; type := text |};
                           {| id := "city"; label := "City"; type := text |} ];
               entry := ∅;
               entries := [ {[ "name" := "A, B"; "zip" := "1" ]} ] |} in
  exportEntriesCSV st
  = Download "data.csv"
      ("Name,City" +:+ str1 LF +:+ Csv.quoted "A, B" +:+ ",")
      "text/csv;charset=utf-8".
Proof.
  intros st. rewrite (exportEntriesCSV_plain st).
  - vm_compute. reflexivity.
  - discriminate.
  - apply (bool_decide_unpack _). vm_compute. exact I.
  - repeat constructor.
  - repeat constructor.
Defined.
End ExportMore.

(** ** Lines, added fields, reconciliation *)

Section LinesMore.
Import JS Bookmarklet.
Implicit Types (s t cur : string).

Lemma split_newline_app s t cur :
  test_class line_break s = false ->
  split_go re_newline 0 cur (s +:+ String LF t)
  = String.rev_app cur s :: split_go re_newline 0 "" t.
Proof.
  revert cur. induction s as [|a s IH]; intros cur Hs.
  - reflexivity.
  - rewrite app_String. simpl in Hs.
    apply orb_false_iff in Hs as [Ha Hs]. unfold line_break in Ha.
    apply orb_false_iff in Ha as [Hlf Hcr].
    cbn [split_go re_newline]. rewrite Hlf, Hcr. by apply IH.
Qed.

Lemma split_newline_single s :
  test_class line_break s = false -> split_go re_newline 0 "" s = [s].
Proof.
  intros Hs. rewrite split_newline_whole; [done|].
  eapply test_class_mono; [|exact Hs].
  intros a Ha. unfold line_break. by rewrite Ha.
Qed.

(** The text is read line by line: what a first line gives, followed by
    what the rest of the text gives. *)
Theorem parseBookmarkletPairs_line_by_line s t :
  test_class line_break s = false ->
  parseBookmarkletPairs (s +:+ String LF t)
  = parseBookmarkletPairs s ++ parseBookmarkletPairs t.
Proof.
  intros Hs. unfold parseBookmarkletPairs, split_regex.
  rewrite split_newline_app, (split_newline_single s) by done.
  change (String.rev_app "" s) with s.
  change (s :: split_go re_newline 0 "" t)
    with ([s] ++ split_go re_newline 0 "" t).
  by rewrite fmap_app, filter_app, omap_app, filter_app.
Qed.

Lemma parseBookmarkletPairs_line_by_line_witness :
  parseBookmarkletPairs ("#a = 1" +:+ String LF "#b: 2")
  = [ {| selector := "#a"; value := "1" |};
      {| selector := "#b"; value := "2" |} ].
Proof.
  rewrite parseBookmarkletPairs_line_by_line; vm_compute; reflexivity.
Defined.
End LinesMore.

Section AddedField.
Import JS Home.

(** [addField] always gives the draft a key for the new field: the value
    the draft already held under that id, and the empty string when it
    held none. *)
Theorem addField_draft_key r36 st :
  entry (addField r36 st) !! uid "field" r36
  = Some (default "" (entry st !! uid "field" r36)).
Proof.
  unfold addField, setFields. simpl. rewrite ensure_keys_lookup.
  rewrite bool_decide_eq_true_2.
  - destruct (entry st !! uid "field" r36); [done|].
    by rewrite uid_field_plain.
  - unfold ids. rewrite fmap_app. apply elem_of_app. right. left.
Qed.
End AddedField.

Lemma setFields_reconciles_witness :
  let newFields := [ {| Home.id := "name"; Home.label := "Name"; Home.type := Home.text |};
                     {| Home.id := "zip"; Home.label := "Zip"; Home.type := Home.number |} ] in
  let st := Home.setFields newFields (Home.updateValue "name" "A" Home.initial) in
  Home.entry st !! "name" = Some "A" /\ Home.entry st !! "zip" = Some "".
Proof.
  intros newFields st.
  destruct (setFields_reconciles newFields (Home.updateValue "name" "A" Home.initial))
    as (_ & Hnew & Hkept).
  - by repeat constructor.
  - split.
    + etrans; [apply Hkept|].
      * apply (bool_decide_unpack _). vm_compute. exact I.
      * vm_compute. eauto.
      * vm_compute. reflexivity.
    + apply Hnew; [|vm_compute; reflexivity].
      apply (bool_decide_unpack _). vm_compute. exact I.
Defined.

(** ** The rows of the CSV export *)

Section RowsMore.
Import JS Home.
Implicit Types (o : object) (k : string) (v : jsval).

Lemma own_value_app o o' k :
  own_value (o ++ o') k
  = match own_value o k with Some x => Some x | None => own_value o' k end.
Proof.
  induction o as [|[k0 v0] o IH]; [done|]. simpl.
  by destruct (decide (k0 = k)).
Qed.

Lemma own_value_replace o k v k' :
  is_Some (own_value o k) ->
  own_value (replace_value o k v) k'
  = if decide (k = k') then Some v else own_value o k'.
Proof.
  induction o as [|[k0 v0] o IH]; simpl; [by intros [? ?]|].
  destruct (decide (k0 = k)) as [->|Hne]; simpl.
  - intros _. by destruct (decide (k = k')).
  - intros Hsome. destruct (decide (k0 = k')) as [->|Hne'].
    + by rewrite decide_False by congruence.
    + by apply IH.
Qed.

Lemma own_value_insert_index n o k v k' :
  own_value o k = None ->
  own_value (insert_index n k v o) k'
  = if decide (k = k') then Some v else own_value o k'.
Proof.
  induction o as [|[k0 v0] o IH]; simpl; [done|].
  destruct (decide (k0 = k)) as [->|Hne]; [done|]. intros Hnone.
  destruct (array_index k0) as [m|]; [destruct (m <? n)%N|]; simpl; try done.
  destruct (decide (k0 = k')) as [->|Hne'].
  - by rewrite decide_False by congruence.
  - by apply IH.
Qed.

(** Reading after defining: the key holds the new value, every other
    key what it held. *)
Lemma own_value_define o k v k' :
  own_value (define_property o k v) k'
  = if decide (k = k') then Some v else own_value o k'.
Proof.
  unfold define_property. destruct (own_value o k) as [x|] eqn:Hk.
  - apply own_value_replace. eauto.
  - destruct (array_index k); [by apply own_value_insert_index|].
    rewrite own_value_app. simpl.
    destruct (decide (k = k')) as [<-|Hne]; [by rewrite Hk|].
    by destruct (own_value o k').
Qed.

Lemma own_value_fromEntries (pairs : list (string * jsval)) o k :
  own_value (foldl (fun o kv => define_property o kv.1 kv.2) o pairs) k
  = match own_value (reverse pairs) k with
    | Some x => Some x
    | None => own_value o k
    end.
Proof.
  revert o. induction pairs as [|[k0 v0] pairs IH]; intros o; [done|].
  cbn [foldl]. rewrite IH, reverse_cons, own_value_app, own_value_define.
  simpl. destruct (own_value (reverse pairs) k); [done|].
  by destruct (decide (k0 = k)).
Qed.

(** Fields that share a label share one column of the export: in the row
    built for a saved entry, the value under a label is the one of the
    last field with that label. *)
Theorem export_row_shared_label st (en : Entry) fs1 f fs2 :
  fields st = fs1 ++ f :: fs2 ->
  Forall (fun g => label g <> label f) fs2 ->
  own_value
    (object_fromEntries ((fun f => (label f, export_cell en f)) <$> fields st))
    (label f)
  = Some (export_cell en f).
Proof.
  intros Hfields Hlast. unfold object_fromEntries.
  rewrite own_value_fromEntries, Hfields, fmap_app, fmap_cons.
  rewrite reverse_app, reverse_cons, <- app_assoc, own_value_app.
  rewrite own_value_None.
  - simpl. by rewrite decide_True.
  - rewrite <- fmap_reverse, <- list_fmap_compose.
    intros [g [Hg Hin]]%list_elem_of_fmap. simpl in Hg.
    rewrite elem_of_reverse in Hin. rewrite Forall_forall in Hlast.
    exact (Hlast g Hin (eq_sym Hg)).
Qed.

Lemma export_row_shared_label_witness :
  let home := {| id := "home"; label := "Phone"; type := tel |} in
  let work := {| id := "work"; label := "Phone"; type := tel |} in
  let st := {| fields := [home; work]; entry := ∅; entries := [] |} in
  let en : Entry := {[ "home" := "1"; "work" := "2" ]} in
  own_value
    (object_fromEntries ((fun f => (label f, export_cell en f)) <$> fields st))
    "Phone"
  = Some (export_cell en work).
Proof.
  intros home work st en.
  apply (export_row_shared_label st en [home] work []); [reflexivity|].
  constructor.
Defined.

Lemma replace_value_keys o k v : (replace_value o k v).*1 = o.*1.
Proof.
  induction o as [|[k0 v0] o IH]; [done|]. simpl.
  destruct (decide (k0 = k)) as [->|Hne]; [done|].
  rewrite !fmap_cons. by rewrite IH.
Qed.

Lemma index_sorted_keys o o' : o.*1 = o'.*1 -> index_sorted o -> index_sorted o'.
Proof.
  revert o'. induction o as [|[k0 v0] o IH]; intros [|[k1 v1] o'];
    try done. rewrite !fmap_cons. simpl. intros [= -> Hkeys].
  destruct (array_index k1) as [n|].
  - intros [Hge Hsorted]. split; [|by apply IH].
    apply (Forall_fmap fst (fun k => forall m, array_index k = Some m -> (n <= m)%N)).
    rewrite <- Hkeys. by apply Forall_fmap.
  - intros Hplain.
    apply (Forall_fmap fst (fun k => array_index k = None)).
    rewrite <- Hkeys. by apply Forall_fmap.
Qed.

Lemma index_sorted_app_plain o k v :
  index_sorted o -> array_index k = None -> index_sorted (o ++ [(k, v)]).
Proof.
  intros Hsorted Hk. induction o as [|[k0 v0] o IH]; simpl in *.
  - by rewrite Hk.
  - destruct (array_index k0) as [n|].
    + destruct Hsorted as [Hge Hsorted]. split; [|by apply IH].
      apply Forall_app. split; [done|]. constructor; [|done].
      simpl. intros m Hm. congruence.
    + apply Forall_app. split; [done|]. by constructor.
Qed.

Lemma Forall_insert_index (P : string * jsval -> Prop) n o k v :
  P (k, v) -> Forall P o -> Forall P (insert_index n k v o).
Proof.
  intros Hnew Ho. induction Ho as [|[k0 v0] o Hhead Ho IH]; simpl.
  - by constructor.
  - destruct (array_index k0) as [m|]; [destruct (m <? n)%N|];
      repeat constructor; done.
Qed.

Lemma index_sorted_insert n o k v :
  index_sorted o -> array_index k = Some n -> index_sorted (insert_index n k v o).
Proof.
  intros Hsorted Hk. induction o as [|[k0 v0] o IH].
  - simpl. by rewrite Hk.
  - cbn [insert_index]. cbn [index_sorted] in Hsorted.
    destruct (array_index k0) as [m|] eqn:Hk0.
    + destruct Hsorted as [Hge Hsorted]. destruct (m <? n)%N eqn:Hlt.
      * apply N.ltb_lt in Hlt. cbn [index_sorted]. rewrite Hk0.
        split; [|by apply IH].
        apply Forall_insert_index; [|done]. simpl. intros m' Hm'.
        rewrite Hk in Hm'. injection Hm' as <-. lia.
      * apply N.ltb_ge in Hlt. cbn [index_sorted]. rewrite Hk, Hk0.
        split; [|by split]. constructor.
        -- simpl. intros m' Hm'. rewrite Hk0 in Hm'. by injection Hm' as <-.
        -- eapply Forall_impl; [exact Hge|]. intros kv Hkv m' Hm'.
           specialize (Hkv m' Hm'). lia.
    + cbn [index_sorted]. rewrite Hk, Hk0. split; [|done].
      constructor; [simpl; intros m'; by rewrite Hk0|].
      eapply Forall_impl; [exact Hsorted|]. intros kv Hkv m' Hm'. congruence.
Qed.

Lemma index_sorted_define o k v :
  index_sorted o -> index_sorted (define_property o k v).
Proof.
  intros Hsorted. unfold define_property. destruct (own_value o k).
  - eapply index_sorted_keys; [|exact Hsorted]. by rewrite replace_value_keys.
  - destruct (array_index k) as [n|] eqn:Hk.
    + by apply index_sorted_insert.
    + by apply index_sorted_app_plain.
Qed.

(** In the row built for a saved entry, labels that are array indices
    ("0", "7", "2024") come first, none before a smaller one, whatever the
    order of the fields; the other labels follow. *)
Theorem export_row_index_labels_first st (en : Entry) :
  index_sorted
    (object_fromEntries ((fun f => (label f, export_cell en f)) <$> fields st)).
Proof.
  unfold object_fromEntries.
  generalize ((fun f => (label f, export_cell en f)) <$> fields st).
  intros pairs.
  assert (Hfold : forall o, index_sorted o ->
            index_sorted (foldl (fun o kv => define_property o kv.1 kv.2) o pairs)).
  { induction pairs as [|[k v] pairs IH]; intros o Ho; [done|].
    cbn [foldl]. apply IH. by apply index_sorted_define. }
  by apply Hfold.
Qed.

(** Fields labelled "Name", "2024", "2023" export the columns 2023,
    2024, Name. *)
Example export_row_numeric_labels :
  exportEntriesCSV
    {| fields := [ {| id := "n"; label := "Name"; type := text |};
                   {| id := "a"; label := "2024"; type := number |};
                   {| id := "b"; label := "2023"; type := number |} ];
       entry := ∅;
       entries := [ {[ "n" := "A"; "a" := "1"; "b" := "2" ]} ] |}
  = Download "data.csv" ("2023,2024,Name" +:+ str1 LF +:+ "2,1,A")
      "text/csv;charset=utf-8".
Proof. vm_compute. reflexivity. Qed.
End RowsMore.
